(** * ForceAR python backend: BLE load-cell frames, decoding and fan-out

    A shallow embedding of the two scripts of the repository,

    - [demo_bluetooth.py]: [BLECollector], whose [callback] unpacks a
      notification into twelve floats and appends a row to a list that is
      later written to a CSV file;
    - [demo_ble_to_foxglove.py]: [FoxgloveBridge], whose [log_frame]
      publishes one frame on thirteen channels, and the notification
      handler [on_notify] that guards the frame length.

    Bytes are [Byte.byte], a 32- or 64-bit pattern is a [Z], a timestamp
    is a binary64 number ([PrimFloat.float]), exceptions are explicit. *)

From Stdlib Require Import String ZArith List Lia Bool Floats.
From coqutil Require Import Byte Word.LittleEndianList.
Import ListNotations.

Local Open Scope Z_scope.

(** ** IEEE-754 bit patterns

    [struct] reads a channel value as a C [float] and hands it to Python
    as a C [double]; the other direction is the C conversion back.  Both
    are written on bit patterns: 1+8+23 bits and 1+11+52 bits. *)
Module IEEE754.

Definition sign32 (w : Z) : Z := w / 2 ^ 31.
Definition expo32 (w : Z) : Z := (w / 2 ^ 23) mod 2 ^ 8.
Definition frac32 (w : Z) : Z := w mod 2 ^ 23.
Definition bits32 (s e m : Z) : Z := s * 2 ^ 31 + e * 2 ^ 23 + m.

Definition sign64 (d : Z) : Z := d / 2 ^ 63.
Definition expo64 (d : Z) : Z := (d / 2 ^ 52) mod 2 ^ 11.
Definition frac64 (d : Z) : Z := d mod 2 ^ 52.
Definition bits64 (s e m : Z) : Z := s * 2 ^ 63 + e * 2 ^ 52 + m.

Inductive fclass : Type := Finite | Infinite | NaN.

Definition class32 (w : Z) : fclass :=
  if expo32 w =? 255 then (if frac32 w =? 0 then Infinite else NaN)
  else Finite.

Definition class64 (d : Z) : fclass :=
  if expo64 d =? 2047 then (if frac64 d =? 0 then Infinite else NaN)
  else Finite.

(** A signalling NaN: exponent all ones, quiet bit (the top bit of the
    fraction) clear, fraction not zero. *)
Definition signalling32 (w : Z) : bool :=
  (expo32 w =? 255) && negb (frac32 w =? 0) && (frac32 w <? 2 ^ 22).

(** The magnitude of a finite number as an integer: a binary32 number
    counted in units of 2^-149, a binary64 number in units of 2^-1074. *)
Definition units32 (w : Z) : Z :=
  if expo32 w =? 0 then frac32 w
  else (2 ^ 23 + frac32 w) * 2 ^ (expo32 w - 1).

Definition units64 (d : Z) : Z :=
  if expo64 d =? 0 then frac64 d
  else (2 ^ 52 + frac64 d) * 2 ^ (expo64 d - 1).

(** [(double)x] for a [float x], the conversion [struct] leaves to the C
    compiler: exact on every finite number and on the infinities; a NaN
    keeps its sign and payload and comes out quiet, as IEEE 754 has it
    for a conversion between formats. *)
Definition widen (w : Z) : Z :=
  let s := sign32 w in
  let e := expo32 w in
  let m := frac32 w in
  if e =? 255 then
    if m =? 0 then bits64 s 2047 0
    else bits64 s 2047 (Z.lor (m * 2 ^ 29) (2 ^ 51))
  else if e =? 0 then
    if m =? 0 then bits64 s 0 0
    else let k := Z.log2 m in
         bits64 s (k + 874) ((m - 2 ^ k) * 2 ^ (52 - k))
  else bits64 s (e + 896) (m * 2 ^ 29).

(** Round [n / 2^sh] to the nearest integer, ties to even. *)
Definition round_shift (n sh : Z) : Z :=
  let q := n / 2 ^ sh in
  let r := n mod 2 ^ sh in
  let half := 2 ^ (sh - 1) in
  if r <? half then q
  else if half <? r then q + 1
  else if Z.even q then q else q + 1.

(** [(float)x] for a [double x], rounding to nearest, ties to even; a
    magnitude beyond the binary32 range becomes an infinity. *)
Definition narrow (d : Z) : Z :=
  let s := sign64 d in
  let e := expo64 d in
  let m := frac64 d in
  if e =? 2047 then
    if m =? 0 then bits32 s 255 0
    else bits32 s 255 (Z.lor (m / 2 ^ 29) (2 ^ 22))
  else
    let sig := if e =? 0 then m else 2 ^ 52 + m in
    if sig =? 0 then bits32 s 0 0
    else
      let ex := Z.max e 1 - 1075 in
      let sh := Z.max (Z.log2 sig + 1 - 24) (- 149 - ex) in
      let q := round_shift sig sh in
      let mag := (ex + sh + 149) * 2 ^ 23 + q in
      if 255 * 2 ^ 23 <=? mag then bits32 s 255 0
      else s * 2 ^ 31 + mag.

(** The exponent and fraction fields [e'], [m'] of the double that a
    float with fields [e], [m] widens to, case by case. *)
Inductive widened : Z -> Z -> Z -> Z -> Prop :=
| W_inf : widened 255 0 2047 0
| W_nan m : 0 < m < 2 ^ 23 ->
    widened 255 m 2047 ((if m <? 2 ^ 22 then m + 2 ^ 22 else m) * 2 ^ 29)
| W_zero : widened 0 0 0 0
| W_subnormal m k : 0 <= k < 23 -> 2 ^ k <= m < 2 * 2 ^ k ->
    widened 0 m (k + 874) ((m - 2 ^ k) * 2 ^ (52 - k))
| W_normal e m : 0 < e < 255 -> 0 <= m < 2 ^ 23 ->
    widened e m (e + 896) (m * 2 ^ 29).

(** A binary32 pattern with the quiet bit set when it is a signalling
    NaN, and untouched otherwise. *)
Definition quieted (w : Z) : Z :=
  if signalling32 w then w + 2 ^ 22 else w.

End IEEE754.

(** ** The Python run time the scripts rely on *)
Module Py.

(** A Python [float] seen as data is its binary64 bit pattern. *)
Definition pyfloat : Type := Z.

Inductive exn : Type :=
| StructError      (* struct.error: wrong buffer size or argument count *)
| OverflowError    (* float too large to pack with f format *)
| IndexError       (* list index out of range *)
| SinkError        (* raised by a channel that cannot log *)
| BleakError       (* the BLE client lost the device *)
| KeyboardInterrupt
| CancelledError.

Inductive outcome (A : Type) : Type :=
| Returned (a : A)
| Raised (e : exn).
Arguments Returned {A} a.
Arguments Raised {A} e.

(** A statement sequence over a mutable world [W]: what was mutated
    before an exception stays mutated. *)
Definition M (W A : Type) : Type := W -> outcome A * W.

Definition ret {W A} (a : A) : M W A := fun w => (Returned a, w).
Definition bind {W A B} (m : M W A) (k : A -> M W B) : M W B :=
  fun w => match m w with
           | (Returned a, w') => k a w'
           | (Raised e, w') => (Raised e, w')
           end.
Definition lift {W A} (o : outcome A) : M W A := fun w => (o, w).

(** An [int] in an f-string. *)
Definition decimal (n : nat) : string :=
  DecimalString.NilEmpty.string_of_uint (Nat.to_uint n).

(** [time.time()]: the wall clock, an arbitrary sequence of readings. *)
Record Clock : Type := { reading : nat -> float; reads : nat }.

Definition time_time (c : Clock) : float * Clock :=
  (reading c (reads c), {| reading := reading c; reads := S (reads c) |}).

(** What the next call of [time.time()] returns, and the clock after it. *)
Definition now (c : Clock) : float := fst (time_time c).
Definition tick (c : Clock) : Clock := snd (time_time c).

(** A sequence of time stamps in which no one is earlier than the one
    before it. *)
Definition nondecreasing (ts : list float) : Prop :=
  forall i a b, nth_error ts i = Some a -> nth_error ts (S i) = Some b ->
                PrimFloat.leb a b = true.

(** The same with every time stamp later than the one before it. *)
Definition increasing (ts : list float) : Prop :=
  forall i a b, nth_error ts i = Some a -> nth_error ts (S i) = Some b ->
                PrimFloat.ltb a b = true.

(** The transport calls the handler once per notification, in arrival
    order; an exception of the handler is reported by the event loop,
    which goes on with the next notification. *)
Fixpoint deliver {W} (handler : list byte -> M W unit)
         (frames : list (list byte)) (w : W) : list (outcome unit) * W :=
  match frames with
  | [] => ([], w)
  | data :: rest =>
      let (o, w') := handler data w in
      let (os, w'') := deliver handler rest w' in
      (o :: os, w'')
  end.

End Py.

Declare Scope py_scope.
Delimit Scope py_scope with py.
Notation "x <- m ;; k" := (Py.bind m (fun x => k))
  (at level 61, m at next level, right associativity) : py_scope.
Notation "m ;;; k" := (Py.bind m (fun _ => k))
  (at level 61, right associativity) : py_scope.

(** ** [struct.Struct("<" + "f"*N_CH)] *)
Module Struct.
Import Py.

Definition N_CH : nat := 12.

(** [unpacker.size] *)
Definition size : nat := 4 * N_CH.

(** One [f] field: four bytes, least significant first. *)
Definition unpack_f (field : list byte) : pyfloat :=
  IEEE754.widen (le_combine field).

(** The first [n] four-byte fields of a buffer, at offsets 0, 4, ... *)
Fixpoint fields (n : nat) (data : list byte) : list (list byte) :=
  match n with
  | O => []
  | S n' => firstn 4 data :: fields n' (skipn 4 data)
  end.

Definition unpack_fields (n : nat) (data : list byte) : list pyfloat :=
  map unpack_f (fields n data).

(** [unpack] requires a buffer of exactly [size] bytes. *)
Definition unpack (data : list byte) : outcome (list pyfloat) :=
  if Nat.eqb (List.length data) size
  then Returned (unpack_fields N_CH data)
  else Raised StructError.

(** The encoder of the same format object, [unpacker.pack].  The
    scripts never call it; it is the re-encoding the round trip of a
    decoded frame is measured against. *)
Definition pack_f (v : pyfloat) : outcome (list byte) :=
  let w := IEEE754.narrow v in
  match IEEE754.class32 w, IEEE754.class64 v with
  | IEEE754.Infinite, IEEE754.Infinite => Returned (le_split 4 w)
  | IEEE754.Infinite, _ => Raised OverflowError
  | _, _ => Returned (le_split 4 w)
  end.

Fixpoint pack_fields (vals : list pyfloat) : outcome (list byte) :=
  match vals with
  | [] => Returned []
  | v :: rest =>
      match pack_f v with
      | Raised e => Raised e
      | Returned bs =>
          match pack_fields rest with
          | Raised e => Raised e
          | Returned tl => Returned (bs ++ tl)
          end
      end
  end.

Definition pack (vals : list pyfloat) : outcome (list byte) :=
  if Nat.eqb (List.length vals) N_CH then pack_fields vals
  else Raised StructError.

(** The test of [on_notify]: the buffer has the size of the format. *)
Definition well_sized (data : list byte) : bool :=
  Nat.eqb (List.length data) size.

(** The 32-bit word of channel [i] of a buffer. *)
Definition word (i : nat) (data : list byte) : Z :=
  le_combine (firstn 4 (skipn (4 * i) data)).

(** No channel of the buffer holds a signalling NaN. *)
Definition signalling_free (data : list byte) : bool :=
  forallb (fun f => negb (IEEE754.signalling32 (le_combine f)))
          (fields N_CH data).

(** A field with the quiet bit of a signalling NaN set. *)
Definition quiet_field (f : list byte) : list byte :=
  le_split 4 (IEEE754.quieted (le_combine f)).

End Struct.

(** ** The BLE client the two scripts subscribe with *)
Module Ble.
Import Py.

(** [client.start_notify] and [client.stop_notify] switch notifications
    of the characteristic; [stop_notify] raises when the link is gone. *)
Record Client : Type := { link_up : bool; notifying : bool }.

Definition start_notify (c : Client) : Client :=
  {| link_up := link_up c; notifying := true |}.

Definition stop_notify (c : Client) : outcome unit * Client :=
  if link_up c
  then (Returned tt, {| link_up := true; notifying := false |})
  else (Raised BleakError, c).

End Ble.

(** ** demo_bluetooth.py *)
Module Collector.
Import Py.

(** A row [(t,) + vals]: the time stamp, then the twelve values. *)
Definition row : Type := (float * list pyfloat)%type.

Record BLECollector : Type := { rows : list row; t0 : float }.

Record World : Type := { clock : Clock; self : BLECollector }.

(** [BLECollector()] *)
Definition init (c : Clock) : World :=
  let (now, c') := time_time c in
  {| clock := c'; self := {| rows := []; t0 := now |} |}.

Definition time_now : M World float :=
  fun w => let (now, c') := time_time (clock w) in
           (Returned now, {| clock := c'; self := self w |}).

Definition self_t0 : M World float :=
  fun w => (Returned (t0 (self w)), w).

Definition rows_append (r : row) : M World unit :=
  fun w => (Returned tt,
            {| clock := clock w;
               self := {| rows := rows (self w) ++ [r];
                          t0 := t0 (self w) |} |}).

(** [BLECollector.callback] *)
Definition callback (data : list byte) : M World unit :=
  (vals <- lift (Struct.unpack data) ;;
   now <- time_now ;;
   start <- self_t0 ;;
   rows_append (PrimFloat.sub now start, vals))%py.

(** The world after [callback] has taken a buffer of the right size. *)
Definition appended (data : list byte) (w : World) : World :=
  {| clock := tick (clock w);
     self := {| rows := rows (self w)
                        ++ [(PrimFloat.sub (now (clock w)) (t0 (self w)),
                             Struct.unpack_fields Struct.N_CH data)];
                t0 := t0 (self w) |} |}.

(** The rows a sequence of notifications adds: one per buffer of the
    right size, stamped with the successive clock readings less [start]. *)
Fixpoint samples (c : Clock) (start : float) (frames : list (list byte))
  : list row :=
  match frames with
  | [] => []
  | data :: rest =>
      if Struct.well_sized data
      then (PrimFloat.sub (now c) start, Struct.unpack_fields Struct.N_CH data)
             :: samples (tick c) start rest
      else samples c start rest
  end.

(** The tail of [main]: the plot loop has been left by exception [e];
    [except KeyboardInterrupt] handles that one alone, [finally] stops
    the notifications, and the CSV file is written after the client
    block when nothing is propagating. *)
Inductive Event : Type :=
| EvStopNotify
| EvDisconnect
| EvCsvSaved (header : list string) (body : list row).

(** [["t"] + [f"ch{i+1}" for i in range(N_CH)]] *)
Definition csv_header : list string :=
  "t"%string
    :: map (fun i => ("ch" ++ decimal (i + 1))%string) (seq 0 Struct.N_CH).

Record Session : Type :=
  { client : Ble.Client; world : World; journal : list Event }.

Definition note (ev : Event) (s : Session) : Session :=
  {| client := client s; world := world s; journal := journal s ++ [ev] |}.

(** [await client.start_notify(CHR_UUID, collector.callback)] *)
Definition subscribe (s : Session) : Session :=
  {| client := Ble.start_notify (client s);
     world := world s;
     journal := journal s |}.

(** A notification of the device: the handler runs while the client is
    notifying. *)
Definition on_frame (data : list byte) (s : Session) : Session :=
  if Ble.notifying (client s)
  then {| client := client s;
          world := snd (callback data (world s));
          journal := journal s |}
  else s.

Definition finally_block (s : Session) : outcome unit * Session :=
  let (o, c') := Ble.stop_notify (client s) in
  (o, note EvStopNotify
        {| client := c'; world := world s; journal := journal s |}).

Definition handled (e : exn) : bool :=
  match e with KeyboardInterrupt => true | _ => false end.

Definition main_exit (e : exn) (s : Session) : outcome unit * Session :=
  match finally_block s with
  | (Raised e', s1) => (Raised e', note EvDisconnect s1)
  | (Returned _, s1) =>
      let s2 := note EvDisconnect s1 in
      if handled e
      then (Returned tt,
            note (EvCsvSaved csv_header (rows (self (world s2)))) s2)
      else (Raised e, s2)
  end.

End Collector.

(** ** demo_ble_to_foxglove.py *)
Module Bridge.
Import Py.

(** The JSON objects [{"t": now, "data": [...]}] and
    [{"t": now, "value": v}]. *)
Inductive Message : Type :=
| RawMsg (t : float) (data : list pyfloat)
| ScalarMsg (t : float) (value : pyfloat).

Definition msg_time (m : Message) : float :=
  match m with RawMsg t _ => t | ScalarMsg t _ => t end.

(** A Foxglove channel: what it has logged so far, oldest first.  The
    class belongs to the SDK; [faulty] says that its [log] raises. *)
Record Channel : Type :=
  { topic : string; faulty : bool; logged : list Message }.

Definition Channel_log (ch : Channel) (m : Message) : outcome Channel :=
  if faulty ch then Raised SinkError
  else Returned {| topic := topic ch; faulty := faulty ch;
                   logged := logged ch ++ [m] |}.

Record FoxgloveBridge : Type :=
  { server_running : bool;
    raw_chan : Channel;
    scalar_chans : list Channel }.

Record World : Type := { clock : Clock; bridge : FoxgloveBridge }.

Definition scalar_topic (i : nat) : string :=
  ("/load_cells/ch" ++ decimal (i + 1))%string.

(** [FoxgloveBridge.__init__]; [broken] tells which topics the SDK
    fails to log on. *)
Definition new_channel (broken : string -> bool) (name : string) : Channel :=
  {| topic := name; faulty := broken name; logged := [] |}.

Definition init (broken : string -> bool) (c : Clock) : World :=
  {| clock := c;
     bridge :=
       {| server_running := true;
          raw_chan := new_channel broken "/load_cells/raw";
          scalar_chans :=
            map (fun i => new_channel broken (scalar_topic i))
                (seq 0 Struct.N_CH) |} |}.

Definition time_now : M World float :=
  fun w => let (now, c') := time_time (clock w) in
           (Returned now, {| clock := c'; bridge := bridge w |}).

Fixpoint set_nth {A} (i : nat) (x : A) (l : list A) : list A :=
  match l, i with
  | [], _ => []
  | _ :: tl, O => x :: tl
  | y :: tl, S i' => y :: set_nth i' x tl
  end.

(** [self.raw_chan.log(m)] *)
Definition log_raw (m : Message) : M World unit :=
  fun w =>
    let b := bridge w in
    match Channel_log (raw_chan b) m with
    | Raised e => (Raised e, w)
    | Returned ch =>
        (Returned tt,
         {| clock := clock w;
            bridge := {| server_running := server_running b;
                         raw_chan := ch;
                         scalar_chans := scalar_chans b |} |})
    end.

(** [self.scalar_chans[i].log(m)] *)
Definition log_scalar (i : nat) (m : Message) : M World unit :=
  fun w =>
    let b := bridge w in
    match nth_error (scalar_chans b) i with
    | None => (Raised IndexError, w)
    | Some ch0 =>
        match Channel_log ch0 m with
        | Raised e => (Raised e, w)
        | Returned ch =>
            (Returned tt,
             {| clock := clock w;
                bridge := {| server_running := server_running b;
                             raw_chan := raw_chan b;
                             scalar_chans :=
                               set_nth i ch (scalar_chans b) |} |})
        end
    end.

(** [for i, v in enumerate(values)], from index [i] on. *)
Fixpoint log_scalars (now : float) (i : nat) (values : list pyfloat)
  : M World unit :=
  match values with
  | [] => ret tt
  | v :: rest =>
      (log_scalar i (ScalarMsg now v) ;;; log_scalars now (S i) rest)%py
  end.

(** [FoxgloveBridge.log_frame] *)
Definition log_frame (values : list pyfloat) : M World unit :=
  (now <- time_now ;;
   log_raw (RawMsg now values) ;;;
   log_scalars now 0 values)%py.

(** [on_notify], the handler given to [start_notify] *)
Definition on_notify (data : list byte) : M World unit :=
  if negb (Nat.eqb (List.length data) Struct.size) then ret tt
  else (vals <- lift (Struct.unpack data) ;; log_frame vals)%py.

(** [FoxgloveBridge.stop] *)
Definition stop (b : FoxgloveBridge) : FoxgloveBridge :=
  {| server_running := false;
     raw_chan := raw_chan b;
     scalar_chans := scalar_chans b |}.

(** The [finally] block of [connect_ble_and_stream], then the exit of
    the client block. *)
Inductive Event : Type :=
| EvStopNotify
| EvBridgeStop
| EvDisconnect.

Record Session : Type :=
  { client : Ble.Client; world : World; journal : list Event }.

Definition note (ev : Event) (s : Session) : Session :=
  {| client := client s; world := world s; journal := journal s ++ [ev] |}.

(** [await client.start_notify(CHR_UUID, on_notify)] *)
Definition subscribe (s : Session) : Session :=
  {| client := Ble.start_notify (client s);
     world := world s;
     journal := journal s |}.

(** A notification of the device: the handler runs while the client is
    notifying. *)
Definition on_frame (data : list byte) (s : Session) : Session :=
  if Ble.notifying (client s)
  then {| client := client s;
          world := snd (on_notify data (world s));
          journal := journal s |}
  else s.

Definition finally_block (s : Session) : outcome unit * Session :=
  let (o, c') := Ble.stop_notify (client s) in
  let s1 := note EvStopNotify
              {| client := c'; world := world s; journal := journal s |} in
  match o with
  | Raised e => (Raised e, s1)
  | Returned _ =>
      (Returned tt,
       note EvBridgeStop
         {| client := client s1;
            world := {| clock := clock (world s1);
                        bridge := stop (bridge (world s1)) |};
            journal := journal s1 |})
  end.

Definition stream_exit (s : Session) : outcome unit * Session :=
  let (o, s1) := finally_block s in (o, note EvDisconnect s1).

(** *** Derived notions used by the statements below *)

(** The sinks in the order [log_frame] serves them, and the messages
    one frame makes for them. *)
Definition sinks (b : FoxgloveBridge) : list Channel :=
  raw_chan b :: scalar_chans b.

Definition frame_messages (now : float) (values : list pyfloat)
  : list Message :=
  RawMsg now values :: map (ScalarMsg now) values.

Definition append_msg (m : Message) (ch : Channel) : Channel :=
  {| topic := topic ch; faulty := faulty ch; logged := logged ch ++ [m] |}.

(** Message [k] goes to sink [k]; the first sink that raises ends the
    frame, and the sinks after it get nothing. *)
Fixpoint fan_out (chans : list Channel) (msgs : list Message) {struct msgs}
  : outcome unit * list Channel :=
  match msgs, chans with
  | [], _ => (Returned tt, chans)
  | _ :: _, [] => (Raised IndexError, [])
  | m :: ms, ch :: chs =>
      if faulty ch then (Raised SinkError, ch :: chs)
      else let (o, chs') := fan_out chs ms in (o, append_msg m ch :: chs')
  end.

(** The same when no sink raises: message [k] is appended to sink [k]. *)
Fixpoint deliver_all (msgs : list Message) (chans : list Channel)
  : list Channel :=
  match msgs, chans with
  | m :: ms, ch :: chs => append_msg m ch :: deliver_all ms chs
  | _, _ => chans
  end.

Definition with_sinks (b : FoxgloveBridge) (chans : list Channel)
  : FoxgloveBridge :=
  match chans with
  | [] => b
  | raw :: scalars =>
      {| server_running := server_running b;
         raw_chan := raw;
         scalar_chans := scalars |}
  end.

(** The world after [log_frame] has served every sink. *)
Definition publish (values : list pyfloat) (w : World) : World :=
  {| clock := tick (clock w);
     bridge := with_sinks (bridge w)
                 (deliver_all (frame_messages (now (clock w)) values)
                              (sinks (bridge w))) |}.

(** What a sink has received so far. *)
Definition raw_log (w : World) : list Message := logged (raw_chan (bridge w)).

Definition scalar_log (i : nat) (w : World) : list Message :=
  match nth_error (scalar_chans (bridge w)) i with
  | Some ch => logged ch
  | None => []
  end.

(** The samples a sequence of notifications makes: one per buffer of the
    right size, stamped with the successive clock readings. *)
Fixpoint samples (c : Clock) (frames : list (list byte))
  : list (float * list pyfloat) :=
  match frames with
  | [] => []
  | data :: rest =>
      if Struct.well_sized data
      then (now c, Struct.unpack_fields Struct.N_CH data)
             :: samples (tick c) rest
      else samples c rest
  end.

Definition raw_of (s : float * list pyfloat) : Message :=
  RawMsg (fst s) (snd s).

Definition scalar_of (i : nat) (s : float * list pyfloat) : Message :=
  ScalarMsg (fst s) (nth i (snd s) 0).

(** Twelve scalar channels on their topics, and no channel whose [log]
    raises. *)
Definition healthy (ch : Channel) : bool := negb (faulty ch).

Definition topics_ok (chans : list Channel) : bool :=
  forallb (fun p => String.eqb (topic (snd p)) (scalar_topic (fst p)))
          (combine (seq 0 (List.length chans)) chans).

Definition well_formed (w : World) : bool :=
  healthy (raw_chan (bridge w))
  && forallb healthy (scalar_chans (bridge w))
  && Nat.eqb (List.length (scalar_chans (bridge w))) Struct.N_CH
  && topics_ok (scalar_chans (bridge w)).

End Bridge.

(** ** Sample inputs *)
Module Examples.
Import Py.

(** A wall clock that returns the given readings one after the other. *)
Definition clock_of (readings : list float) : Clock :=
  {| reading := fun k => nth k readings 0%float; reads := 0 |}.

(** Twelve channels at 0.0, twelve channels at 1.0, a buffer of forty
    bytes, and a buffer whose first channel is the signalling NaN
    0x7f800001. *)
Definition zero_frame : list byte := repeat Byte.x00 48.

Definition ones_frame : list byte :=
  concat (repeat [Byte.x00; Byte.x00; Byte.x80; Byte.x3f] 12).

Definition short_frame : list byte := repeat Byte.x00 40.

Definition snan_frame : list byte :=
  [Byte.x01; Byte.x00; Byte.x80; Byte.x7f] ++ repeat Byte.x00 44.

(** The same buffer with the quiet NaN 0x7fc00001 in its first channel. *)
Definition qnan_frame : list byte :=
  [Byte.x01; Byte.x00; Byte.xc0; Byte.x7f] ++ repeat Byte.x00 44.

(** A bridge with every channel in order, and one whose aggregated
    channel cannot log. *)
Definition sound_bridge (c : Clock) : Bridge.World :=
  Bridge.init (fun _ => false) c.

Definition raw_broken_bridge (c : Clock) : Bridge.World :=
  Bridge.init (String.eqb "/load_cells/raw") c.

End Examples.

(** ** Finding the device (both scripts) *)
Module Discovery.

Definition DEVICE_NAME : string := "GIGA-LoadCell".

(** A discovered device as the scripts look at it: [d.name], which is
    [None] when the advertisement carries no name, and [d.address]. *)
Record BLEDevice : Type := { name : option string; address : string }.

(** [d.name == DEVICE_NAME] *)
Definition named (d : BLEDevice) : bool :=
  match name d with
  | Some n => String.eqb n DEVICE_NAME
  | None => false
  end.

(** [target = None; for d in devices: if d.name == DEVICE_NAME: target =
    d; break] *)
Fixpoint find_target (devices : list BLEDevice) : option BLEDevice :=
  match devices with
  | [] => None
  | d :: rest => if named d then Some d else find_target rest
  end.

End Discovery.

(** ** The JSON schemas of demo_ble_to_foxglove.py *)
Module Schema.
Import Py.

#[local] Set Warnings "-register-all".

(** A Python [float] in a message: a clock reading or a decoded value. *)
Inductive number : Type :=
| Seconds (t : float)
| Value (v : pyfloat).

Inductive Json : Type :=
| JNumber (x : number)
| JArray (items : list Json)
| JObject (members : list (string * Json)).

(** The keywords the two schemas use. *)
Inductive JsonSchema : Type :=
| TNumber
| TArray (items : JsonSchema) (minItems maxItems : nat)
| TObject (properties : list (string * JsonSchema)) (required : list string).

(** [RAW_SCHEMA] and [SCALAR_SCHEMA] *)
Definition RAW_SCHEMA : JsonSchema :=
  TObject [("t"%string, TNumber);
           ("data"%string, TArray TNumber Struct.N_CH Struct.N_CH)]
          ["t"%string; "data"%string].


Fixpoint member (key : string) (members : list (string * Json))
  : option Json :=
  match members with
  | [] => None
  | (k, v) :: rest => if String.eqb k key then Some v else member key rest
  end.

(** Validation: the instance has the type; an array has between
    [minItems] and [maxItems] items, all valid; an object has every
    required member, and each member named in [properties] is valid. *)
Fixpoint valid (s : JsonSchema) (j : Json) {struct s} : bool :=
  match s, j with
  | TNumber, JNumber _ => true
  | TArray items lo hi, JArray xs =>
      Nat.leb lo (List.length xs) && Nat.leb (List.length xs) hi
      && forallb (valid items) xs
  | TObject properties required, JObject members =>
      forallb (fun key => match member key members with
                          | Some _ => true
                          | None => false
                          end) required
      && (fix each (ps : list (string * JsonSchema)) : bool :=
            match ps with
            | [] => true
            | (key, sub) :: rest =>
                match member key members with
                | Some v => valid sub v
                | None => true
                end && each rest
            end) properties
  | _, _ => false
  end.

(** The dictionaries [log_frame] hands to the channels. *)
Definition to_json (m : Bridge.Message) : Json :=
  match m with
  | Bridge.RawMsg t data =>
      JObject [("t"%string, JNumber (Seconds t));
               ("data"%string, JArray (map (fun v => JNumber (Value v)) data))]
  | Bridge.ScalarMsg t v =>
      JObject [("t"%string, JNumber (Seconds t));
               ("value"%string, JNumber (Value v))]
  end.

End Schema.

(** ** [connect_ble_and_stream] as a whole *)
Module Stream.
Import Py.

(** What the coroutine meets: the devices the scan returns, what
    [is_connected()] answers, the notifications that arrive while the
    loop sleeps, the exception that ends the loop, whether the link is
    still up when [finally] runs, and the topics the SDK fails on. *)
Record Env : Type :=
  { devices : list Discovery.BLEDevice;
    is_connected : bool;
    arriving : list (list byte);
    loop_exit : exn;
    link_at_exit : bool;
    broken : string -> bool }.

Inductive ending : Type :=
| Finished
| RuntimeError (message : string)
| Propagated (e : exn).

Definition not_found : string :=
  "BLE device not found. Check advertising, name, and that no other app is connected.".

Definition connect_failed : string := "BLE connect failed.".

(** The notifications of the loop, one after the other. *)
Definition streamed (frames : list (list byte)) (s : Bridge.Session)
  : Bridge.Session :=
  fold_left (fun s data => Bridge.on_frame data s) frames s.

(** The link as it is when the loop is left. *)
Definition at_exit (up : bool) (s : Bridge.Session) : Bridge.Session :=
  {| Bridge.client := {| Ble.link_up := up;
                         Ble.notifying := Ble.notifying (Bridge.client s) |};
     Bridge.world := Bridge.world s;
     Bridge.journal := Bridge.journal s |}.

(** [except KeyboardInterrupt] *)
Definition caught (e : exn) : bool :=
  match e with KeyboardInterrupt => true | _ => false end.

(** The coroutine: its ending, and the session when the bridge was
    created ([None] when it never was). *)
Definition connect_ble_and_stream (env : Env) (c : Clock)
  : ending * option Bridge.Session :=
  match Discovery.find_target (devices env) with
  | None => (RuntimeError not_found, None)
  | Some _ =>
      let s0 := {| Bridge.client := {| Ble.link_up := is_connected env;
                                       Ble.notifying := false |};
                   Bridge.world := Bridge.init (broken env) c;
                   Bridge.journal := [] |} in
      if negb (is_connected env)
      then (RuntimeError connect_failed, Some (Bridge.note Bridge.EvDisconnect s0))
      else
        let s1 := streamed (arriving env) (Bridge.subscribe s0) in
        match Bridge.stream_exit (at_exit (link_at_exit env) s1) with
        | (Raised e', s2) => (Propagated e', Some s2)
        | (Returned _, s2) =>
            (if caught (loop_exit env) then Finished
             else Propagated (loop_exit env), Some s2)
        end
  end.

End Stream.

(** ** Sample devices and runs *)
Module Fixtures.

Definition gadget : Discovery.BLEDevice :=
  {| Discovery.name := Some "GIGA-LoadCell"%string;
     Discovery.address := "AA:BB:CC:DD:EE:FF"%string |}.

Definition nameless : Discovery.BLEDevice :=
  {| Discovery.name := None; Discovery.address := "00:11:22:33:44:55"%string |}.

(** The device is found but [is_connected()] answers no. *)
Definition refused : Stream.Env :=
  {| Stream.devices := [nameless; gadget];
     Stream.is_connected := false;
     Stream.arriving := [Examples.ones_frame];
     Stream.loop_exit := Py.KeyboardInterrupt;
     Stream.link_at_exit := true;
     Stream.broken := fun _ => false |}.

(** Two notifications, one of them short, then Ctrl-C. *)
Definition interrupted : Stream.Env :=
  {| Stream.devices := [nameless; gadget];
     Stream.is_connected := true;
     Stream.arriving := [Examples.ones_frame; Examples.short_frame];
     Stream.loop_exit := Py.KeyboardInterrupt;
     Stream.link_at_exit := true;
     Stream.broken := fun _ => false |}.

End Fixtures.

(** * Properties *)

(** ** Conversions between binary32 and binary64 *)
Module IEEE754_facts.
Import IEEE754.

Ltac pow2_consts :=
  change (2 ^ 63) with 9223372036854775808 in *;
  change (2 ^ 53) with 9007199254740992 in *;
  change (2 ^ 52) with 4503599627370496 in *;
  change (2 ^ 51) with 2251799813685248 in *;
  change (2 ^ 32) with 4294967296 in *;
  change (2 ^ 31) with 2147483648 in *;
  change (2 ^ 29) with 536870912 in *;
  change (2 ^ 28) with 268435456 in *;
  change (2 ^ 24) with 16777216 in *;
  change (2 ^ 23) with 8388608 in *;
  change (2 ^ 22) with 4194304 in *;
  change (2 ^ 11) with 2048 in *;
  change (2 ^ 8) with 256 in *.

Ltac euclid := pow2_consts; Z.div_mod_to_equations; lia.

(** 1.0, the smallest subnormal, a signalling NaN and the largest finite
    float, widened; the double just below the rounding boundary of the
    largest float, narrowed. *)
Example widen_one : widen 0x3f800000 = 0x3ff0000000000000.
Proof. reflexivity. Qed.

Example widen_least_subnormal : widen 0x00000001 = 0x36a0000000000000.
Proof. reflexivity. Qed.

Example widen_signalling_nan : widen 0x7f800001 = 0x7ff8000020000000.
Proof. reflexivity. Qed.

Example widen_greatest : widen 0x7f7fffff = 0x47efffffe0000000.
Proof. reflexivity. Qed.

Example narrow_rounds_down : narrow 0x47efffffefffffff = 0x7f7fffff.
Proof. reflexivity. Qed.

Example narrow_tie_overflows : narrow 0x47effffff0000000 = 0x7f800000.
Proof. reflexivity. Qed.

Example units_of_one : units32 0x3f800000 = 2 ^ 149.
Proof. reflexivity. Qed.

Lemma fields32 w : 0 <= w < 2 ^ 32 ->
  0 <= sign32 w <= 1 /\ 0 <= expo32 w <= 255 /\ 0 <= frac32 w < 2 ^ 23 /\
  w = bits32 (sign32 w) (expo32 w) (frac32 w).
Proof. unfold sign32, expo32, frac32, bits32. intros. euclid. Qed.

Lemma fields_bits64 s e m :
  0 <= s <= 1 -> 0 <= e < 2048 -> 0 <= m < 2 ^ 52 ->
  sign64 (bits64 s e m) = s /\ expo64 (bits64 s e m) = e /\ frac64 (bits64 s e m) = m.
Proof. unfold sign64, expo64, frac64, bits64. intros. euclid. Qed.

(** Setting the quiet bit of a fraction. *)
Lemma quiet_bit m : 0 <= m < 2 ^ 23 ->
  Z.lor m (2 ^ 22) = if m <? 2 ^ 22 then m + 2 ^ 22 else m.
Proof.
  intros Hm.
  pose proof (Z.add_lor_land m (2 ^ 22)) as Hadd.
  assert (Hland : Z.land m (2 ^ 22) = if m <? 2 ^ 22 then 0 else 2 ^ 22).
  { destruct (Z.ltb_spec m (2 ^ 22)) as [Hlt | Hge].
    - apply Z.bits_inj'. intros n Hn. rewrite Z.land_spec, Z.bits_0.
      destruct (Z.eq_dec n 22) as [-> | Hne].
      + rewrite (Z.bits_above_log2 m 22); [reflexivity | lia |].
        destruct (Z.eq_dec m 0) as [-> | ?]; [simpl; lia |].
        apply Z.log2_lt_pow2; lia.
      + rewrite Z.pow2_bits_false by lia. apply andb_false_r.
    - apply Z.bits_inj'. intros n Hn. rewrite Z.land_spec.
      destruct (Z.eq_dec n 22) as [-> | Hne].
      + rewrite Z.pow2_bits_true by lia. rewrite andb_true_r.
        replace m with (m - 2 ^ 22 + 1 * 2 ^ 22) by lia.
        rewrite Z.testbit_eqb by lia. 
        rewrite Z.div_add by lia. rewrite Z.div_small by lia. reflexivity.
      + rewrite Z.pow2_bits_false by lia. apply andb_false_r. }
  destruct (m <? 2 ^ 22); lia.
Qed.

Lemma quiet_bit_widen m : 0 <= m < 2 ^ 23 ->
  Z.lor (m * 2 ^ 29) (2 ^ 51) = Z.lor m (2 ^ 22) * 2 ^ 29.
Proof.
  intros Hm. rewrite <- !Z.shiftl_mul_pow2 by lia.
  change (2 ^ 51) with (Z.shiftl (2 ^ 22) 29).
  now rewrite Z.shiftl_lor.
Qed.

Lemma round_shift_exact q sh : 0 < sh -> round_shift (q * 2 ^ sh) sh = q.
Proof.
  intros Hsh. unfold round_shift.
  assert (0 < 2 ^ sh) by (apply Z.pow_pos_nonneg; lia).
  assert (0 < 2 ^ (sh - 1)) by (apply Z.pow_pos_nonneg; lia).
  rewrite Z.div_mul, Z.mod_mul by lia.
  destruct (Z.ltb_spec 0 (2 ^ (sh - 1))); [reflexivity | lia].
Qed.

Lemma widen_spec w : 0 <= w < 2 ^ 32 ->
  exists e' m', widen w = bits64 (sign32 w) e' m' /\
                widened (expo32 w) (frac32 w) e' m'.
Proof.
  intros Hw. destruct (fields32 w Hw) as (Hs & He & Hm & _).
  unfold widen.
  destruct (Z.eqb_spec (expo32 w) 255) as [-> | E255].
  - destruct (Z.eqb_spec (frac32 w) 0) as [-> | M0].
    + do 2 eexists; split; [reflexivity | constructor].
    + rewrite quiet_bit_widen, quiet_bit by lia.
      do 2 eexists; split; [reflexivity | constructor; lia].
  - destruct (Z.eqb_spec (expo32 w) 0) as [-> | E0].
    + destruct (Z.eqb_spec (frac32 w) 0) as [-> | M0].
      * do 2 eexists; split; [reflexivity | constructor].
      * do 2 eexists; split; [reflexivity |].
        pose proof (Z.log2_spec (frac32 w)) as Hlog.
        replace (2 ^ Z.succ (Z.log2 (frac32 w)))
          with (2 * 2 ^ Z.log2 (frac32 w)) in Hlog
          by (rewrite Z.pow_succ_r by apply Z.log2_nonneg; reflexivity).
        constructor; [| lia].
        split; [apply Z.log2_nonneg | apply Z.log2_lt_pow2; lia].
    + do 2 eexists; split; [reflexivity | constructor; lia].
Qed.

Lemma pow2_split k : 0 <= k < 23 -> 2 ^ k * 2 ^ (52 - k) = 2 ^ 52 /\ 0 < 2 ^ k /\ 0 < 2 ^ (52 - k).
Proof.
  intros Hk. rewrite <- Z.pow_add_r by lia.
  replace (k + (52 - k)) with 52 by lia.
  repeat split; apply Z.pow_pos_nonneg; lia.
Qed.

Lemma widened_range e m e' m' :
  widened e m e' m' -> 0 <= e' < 2048 /\ 0 <= m' < 2 ^ 52.
Proof.
  destruct 1 as [| m Hm | | m k Hk Hm | e m He Hm ].
  - pow2_consts; lia.
  - destruct (Z.ltb_spec m (2 ^ 22)); pow2_consts; lia.
  - pow2_consts; lia.
  - destruct (pow2_split k Hk) as (Hp & Hp1 & Hp2). nia.
  - pow2_consts; lia.
Qed.

(** Case analysis on how the fields were widened: one goal per kind of
    number, with fields [m], [e] (and [k], the position of the leading
    bit of a subnormal fraction). *)
Ltac widened_cases H e' m' :=
  inversion H as [ E M | m Hm0 E M | E M | m k Hk Hmk E M | e m He0 Hm0 E M ];
  subst e' m'; rewrite <- ?E, <- ?M in *; clear H.

Lemma narrow_widen w : 0 <= w < 2 ^ 32 -> narrow (widen w) = quieted w.
Proof.
  intros Hw. destruct (fields32 w Hw) as (Hs & He & Hm & Hbits).
  destruct (widen_spec w Hw) as (e' & m' & -> & Hcase).
  pose proof (widened_range _ _ _ _ Hcase) as (He' & Hm').
  unfold narrow.
  destruct (fields_bits64 (sign32 w) e' m') as (-> & -> & ->); [lia .. |].
  unfold quieted, signalling32, bits32 in *.
  widened_cases Hcase e' m'.
  - (* infinity *) cbn. lia.
  - (* NaN *)
    cbn [Z.eqb Pos.eqb andb negb].
    set (q := if m <? 2 ^ 22 then m + 2 ^ 22 else m) in *.
    assert (Hq : 2 ^ 22 <= q < 2 ^ 23).
    { unfold q. destruct (Z.ltb_spec m (2 ^ 22)); pow2_consts; lia. }
    destruct (Z.eqb_spec (q * 2 ^ 29) 0) as [? | _]; [pow2_consts; lia |].
    rewrite Z.div_mul by (pow2_consts; lia).
    rewrite quiet_bit by lia.
    destruct (Z.ltb_spec q (2 ^ 22)) as [? | _]; [lia |].
    destruct (Z.eqb_spec m 0) as [? | _]; [lia |].
    unfold q. cbn [negb andb]. destruct (Z.ltb_spec m (2 ^ 22)); lia.
  - (* zero *) cbn. lia.
  - (* subnormal *)
    destruct (pow2_split k Hk) as (Hp & Hp1 & Hp2).
    assert (Hsig : 2 ^ 52 + (m - 2 ^ k) * 2 ^ (52 - k) = m * 2 ^ (52 - k)) by nia.
    assert (Hlo : 2 ^ 52 <= m * 2 ^ (52 - k)) by nia.
    assert (Hhi : m * 2 ^ (52 - k) < 2 ^ 53)
      by (change (2 ^ 53) with (2 * 2 ^ 52); nia).
    destruct (Z.eqb_spec (k + 874) 2047) as [? | _]; [lia |].
    destruct (Z.eqb_spec (k + 874) 0) as [? | _]; [lia |].
    rewrite Hsig.
    destruct (Z.eqb_spec (m * 2 ^ (52 - k)) 0) as [? | _]; [lia |].
    rewrite (Z.log2_unique (m * 2 ^ (52 - k)) 52)
      by (change (2 ^ Z.succ 52) with (2 ^ 53); lia).
    replace (Z.max (52 + 1 - 24) (- 149 - (Z.max (k + 874) 1 - 1075)))
      with (52 - k) by lia.
    rewrite round_shift_exact by lia.
    replace (Z.max (k + 874) 1 - 1075 + (52 - k) + 149) with 0 by lia.
    destruct (Z.leb_spec (255 * 2 ^ 23) (0 * 2 ^ 23 + m)) as [? | _];
      [pow2_consts; lia |].
    cbn [Z.eqb andb]. lia.
  - (* normal *)
    destruct (Z.eqb_spec (e + 896) 2047) as [? | _]; [lia |].
    destruct (Z.eqb_spec (e + 896) 0) as [? | _]; [lia |].
    replace (2 ^ 52 + m * 2 ^ 29) with ((2 ^ 23 + m) * 2 ^ 29)
      by (pow2_consts; lia).
    destruct (Z.eqb_spec ((2 ^ 23 + m) * 2 ^ 29) 0) as [? | _];
      [pow2_consts; lia |].
    rewrite (Z.log2_unique ((2 ^ 23 + m) * 2 ^ 29) 52)
      by (change (2 ^ Z.succ 52) with (2 ^ 53); pow2_consts; lia).
    replace (Z.max (52 + 1 - 24) (- 149 - (Z.max (e + 896) 1 - 1075)))
      with 29 by lia.
    rewrite round_shift_exact by lia.
    destruct (Z.leb_spec (255 * 2 ^ 23)
                ((Z.max (e + 896) 1 - 1075 + 29 + 149) * 2 ^ 23 + (2 ^ 23 + m)))
      as [? | _]; [pow2_consts; lia |].
    destruct (Z.eqb_spec e 255) as [? | _]; [lia |].
    cbn [andb]. lia.
Qed.

Lemma widen_range w : 0 <= w < 2 ^ 32 -> 0 <= widen w < 2 ^ 64.
Proof.
  intros Hw. destruct (fields32 w Hw) as (Hs & _).
  destruct (widen_spec w Hw) as (e' & m' & -> & Hcase).
  apply widened_range in Hcase. unfold bits64.
  change (2 ^ 64) with 18446744073709551616. pow2_consts. lia.
Qed.

Lemma widen_sign w : 0 <= w < 2 ^ 32 -> sign64 (widen w) = sign32 w.
Proof.
  intros Hw. destruct (fields32 w Hw) as (Hs & _).
  destruct (widen_spec w Hw) as (e' & m' & -> & Hcase).
  apply widened_range in Hcase.
  now destruct (fields_bits64 (sign32 w) e' m') as (-> & _); [lia .. |].
Qed.

Lemma widen_class w : 0 <= w < 2 ^ 32 -> class64 (widen w) = class32 w.
Proof.
  intros Hw. destruct (fields32 w Hw) as (Hs & He & Hm & _).
  destruct (widen_spec w Hw) as (e' & m' & -> & Hcase).
  pose proof (widened_range _ _ _ _ Hcase) as (He' & Hm').
  unfold class64, class32.
  destruct (fields_bits64 (sign32 w) e' m') as (_ & -> & ->); [lia .. |].
  widened_cases Hcase e' m'; try reflexivity.
  - cbn [Z.eqb Pos.eqb].
    destruct (Z.eqb_spec m 0) as [? | _]; [lia |].
    destruct (Z.eqb_spec ((if m <? 2 ^ 22 then m + 2 ^ 22 else m) * 2 ^ 29) 0)
      as [Hz | _]; [| reflexivity].
    destruct (Z.ltb_spec m (2 ^ 22)); pow2_consts; lia.
  - destruct (Z.eqb_spec (k + 874) 2047) as [? | _]; [lia | reflexivity].
  - destruct (Z.eqb_spec (e + 896) 2047) as [? | _]; [lia |].
    destruct (Z.eqb_spec e 255) as [? | _]; [lia | reflexivity].
Qed.

(** Widening is exact: the double is the same real number. *)
Lemma widen_exact w : 0 <= w < 2 ^ 32 -> class32 w = Finite ->
  units64 (widen w) = units32 w * 2 ^ 925.
Proof.
  intros Hw Hfin. destruct (fields32 w Hw) as (Hs & He & Hm & _).
  destruct (widen_spec w Hw) as (e' & m' & -> & Hcase).
  pose proof (widened_range _ _ _ _ Hcase) as (He' & Hm').
  unfold units64, units32, class32 in *.
  destruct (fields_bits64 (sign32 w) e' m') as (_ & -> & ->); [lia .. |].
  widened_cases Hcase e' m'.
  - discriminate.
  - cbn [Z.eqb Pos.eqb] in Hfin. destruct (m =? 0); discriminate.
  - reflexivity.
  - destruct (pow2_split k Hk) as (Hp & Hp1 & Hp2).
    destruct (Z.eqb_spec (k + 874) 0) as [? | _]; [lia |].
    cbn [Z.eqb].
    replace (2 ^ 52 + (m - 2 ^ k) * 2 ^ (52 - k)) with (m * 2 ^ (52 - k)) by nia.
    rewrite <- Z.mul_assoc, <- Z.pow_add_r by lia.
    do 2 f_equal. lia.
  - destruct (Z.eqb_spec (e + 896) 0) as [? | _]; [lia |].
    destruct (Z.eqb_spec e 0) as [? | _]; [lia |].
    replace (2 ^ 52 + m * 2 ^ 29) with ((2 ^ 23 + m) * 2 ^ 29)
      by (pow2_consts; lia).
    rewrite <- !Z.mul_assoc, <- !Z.pow_add_r by lia.
    do 2 f_equal. lia.
Qed.

End IEEE754_facts.

(** ** The format object *)
Module Struct_facts.
Import Py Struct IEEE754 IEEE754_facts.

Lemma fields_length n data : List.length (fields n data) = n.
Proof. revert data; induction n; intros; cbn; [reflexivity | now rewrite IHn]. Qed.

Lemma fields_width n : forall data, List.length data = (4 * n)%nat ->
  Forall (fun f => List.length f = 4%nat) (fields n data).
Proof.
  induction n as [| n IH]; intros data Hlen; cbn [fields]; constructor.
  - rewrite length_firstn. lia.
  - apply IH. rewrite length_skipn. lia.
Qed.

Lemma concat_fields n : forall data, List.length data = (4 * n)%nat ->
  concat (fields n data) = data.
Proof.
  induction n as [| n IH]; intros data Hlen; cbn [fields concat].
  - destruct data; [reflexivity | discriminate].
  - rewrite IH by (rewrite length_skipn; lia). apply firstn_skipn.
Qed.

Lemma nth_fields n : forall data i, (i < n)%nat ->
  nth_error (fields n data) i = Some (firstn 4 (skipn (4 * i) data)).
Proof.
  induction n as [| n IH]; intros data i Hi; [lia |].
  destruct i as [| i]; cbn [fields nth_error].
  - reflexivity.
  - rewrite IH by lia. rewrite skipn_skipn. do 3 f_equal. lia.
Qed.

Lemma word_range f : List.length f = 4%nat -> 0 <= le_combine f < 2 ^ 32.
Proof. intros H. pose proof (le_combine_bound f) as B. now rewrite H in B. Qed.

Lemma unpack_ok data : List.length data = size ->
  unpack data = Returned (unpack_fields N_CH data).
Proof. intros H. unfold unpack. now rewrite H, Nat.eqb_refl. Qed.

Lemma unpack_bad data : List.length data <> size ->
  unpack data = Raised StructError.
Proof.
  intros H. unfold unpack.
  now destruct (Nat.eqb_spec (List.length data) size).
Qed.

Lemma class32_quieted w : 0 <= w < 2 ^ 32 -> class32 (quieted w) = class32 w.
Proof.
  intros Hw. unfold quieted, signalling32.
  destruct (Z.eqb_spec (expo32 w) 255) as [E | E]; [| reflexivity].
  destruct (Z.eqb_spec (frac32 w) 0) as [M | M]; [reflexivity |].
  destruct (Z.ltb_spec (frac32 w) (2 ^ 22)) as [Q | Q]; [| reflexivity].
  cbn [andb negb]. unfold class32.
  assert (E' : expo32 (w + 2 ^ 22) = 255) by (unfold expo32 in *; unfold frac32 in *; euclid).
  assert (M' : frac32 (w + 2 ^ 22) = frac32 w + 2 ^ 22) by (unfold frac32 in *; euclid).
  rewrite E, E', M'.
  destruct (Z.eqb_spec (frac32 w + 2 ^ 22) 0) as [? | _]; [unfold frac32 in *; euclid |].
  destruct (Z.eqb_spec (frac32 w) 0); [contradiction | reflexivity].
Qed.

Lemma pack_unpack_f f : List.length f = 4%nat ->
  pack_f (unpack_f f) = Returned (quiet_field f).
Proof.
  intros Hlen. pose proof (word_range f Hlen) as Hw.
  unfold pack_f, unpack_f, quiet_field.
  rewrite narrow_widen, widen_class, class32_quieted by assumption.
  now destruct (class32 (le_combine f)).
Qed.

Lemma pack_unpack_fields fs : Forall (fun f => List.length f = 4%nat) fs ->
  pack_fields (map unpack_f fs) = Returned (concat (map quiet_field fs)).
Proof.
  induction 1 as [| f fs Hf _ IH]; cbn [map pack_fields concat].
  - reflexivity.
  - now rewrite pack_unpack_f, IH.
Qed.

Lemma quiet_field_id f : List.length f = 4%nat ->
  signalling32 (le_combine f) = false -> quiet_field f = f.
Proof.
  intros Hlen Hq. unfold quiet_field, quieted. rewrite Hq, <- Hlen.
  apply split_le_combine.
Qed.

(** Unpacking and packing again gives the buffer back, up to the quiet
    bit of the signalling NaNs in it. *)
Lemma pack_unpack data : List.length data = size ->
  pack (unpack_fields N_CH data)
  = Returned (concat (map quiet_field (fields N_CH data))).
Proof.
  intros Hlen. unfold pack, unpack_fields.
  rewrite length_map, fields_length, Nat.eqb_refl.
  apply pack_unpack_fields, fields_width. exact Hlen.
Qed.

End Struct_facts.

(** ** The collector *)
Module Collector_facts.
Import Py Struct Collector Struct_facts.

Lemma callback_valid data w : List.length data = size ->
  callback data w = (Returned tt, appended data w).
Proof.
  intros Hlen. unfold callback, bind, lift. rewrite (unpack_ok data Hlen).
  reflexivity.
Qed.

Lemma callback_invalid data w : List.length data <> size ->
  callback data w = (Raised StructError, w).
Proof.
  intros Hlen. unfold callback, bind, lift. now rewrite (unpack_bad data Hlen).
Qed.

Lemma deliver_rows frames : forall w,
  let w' := snd (deliver callback frames w) in
  rows (self w') = rows (self w) ++ samples (clock w) (t0 (self w)) frames
  /\ t0 (self w') = t0 (self w).
Proof.
  induction frames as [| data rest IH]; intros w; cbn [deliver samples].
  - cbn. now rewrite app_nil_r.
  - unfold well_sized.
    destruct (Nat.eqb_spec (List.length data) size) as [Hlen | Hlen].
    + rewrite (callback_valid data w Hlen).
      specialize (IH (appended data w)).
      destruct (deliver callback rest (appended data w)) as [os w''].
      cbn [snd] in *. destruct IH as [IHr IHt]. rewrite IHr, IHt.
      cbn [appended self rows t0 clock]. now rewrite <- app_assoc.
    + rewrite (callback_invalid data w Hlen).
      specialize (IH w).
      destruct (deliver callback rest w) as [os w'']. exact IH.
Qed.


Lemma rows_times frames : forall c start,
  map fst (samples c start frames)
  = map (fun k => PrimFloat.sub (reading c k) start)
        (seq (reads c) (List.length (filter well_sized frames))).
Proof.
  induction frames as [| data rest IH]; intros c start;
    cbn [samples filter]; [reflexivity |].
  destruct (well_sized data); [| apply IH].
  cbn [map fst List.length seq]. f_equal. apply (IH (tick c)).
Qed.

Lemma rows_values frames : forall c start,
  map snd (samples c start frames)
  = map (unpack_fields N_CH) (filter well_sized frames).
Proof.
  induction frames as [| data rest IH]; intros c start;
    cbn [samples filter]; [reflexivity |].
  destruct (well_sized data); [| apply IH].
  cbn [map snd]. f_equal. apply IH.
Qed.


End Collector_facts.

(** ** The bridge *)
Module Bridge_facts.
Import Py Struct Bridge Struct_facts.

Lemma set_nth_app {A} (pre : list A) x y post :
  set_nth (List.length pre) y (pre ++ x :: post) = pre ++ y :: post.
Proof. induction pre as [| a pre IH]; cbn; [reflexivity | now rewrite IH]. Qed.

Lemma nth_error_pre {A} (pre : list A) post :
  nth_error (pre ++ post) (List.length pre) = nth_error post 0.
Proof. induction pre; cbn; auto. Qed.

(** The loop over the scalar channels, from channel [length pre] on,
    serves the remaining channels as [fan_out] does. *)
Lemma log_scalars_fan_out t values : forall pre post w,
  scalar_chans (bridge w) = pre ++ post ->
  log_scalars t (List.length pre) values w
  = let (o, post') := fan_out post (map (ScalarMsg t) values) in
    (o, {| clock := clock w;
           bridge := {| server_running := server_running (bridge w);
                        raw_chan := raw_chan (bridge w);
                        scalar_chans := pre ++ post' |} |}).
Proof.
  induction values as [| v rest IH]; intros pre post w Hch.
  - cbn [log_scalars map fan_out]. unfold ret. rewrite <- Hch.
    destruct w as [c [r raw sc]]. reflexivity.
  - cbn [log_scalars map fan_out]. unfold bind at 1. unfold log_scalar.
    rewrite Hch, nth_error_pre.
    destruct post as [| ch post]; cbn [nth_error].
    + rewrite <- Hch. destruct w as [c [r raw sc]]. reflexivity.
    + unfold Channel_log. destruct (faulty ch) eqn:Hf.
      * rewrite <- Hch. destruct w as [c [r raw sc]]. reflexivity.
      * rewrite set_nth_app.
        assert (Hrec : {| topic := topic ch; faulty := false;
                          logged := logged ch ++ [ScalarMsg t v] |}
                       = append_msg (ScalarMsg t v) ch)
          by (unfold append_msg; now rewrite Hf).
        rewrite Hrec.
        replace (S (List.length pre))
          with (List.length (pre ++ [append_msg (ScalarMsg t v) ch]))
          by (rewrite length_app; cbn; lia).
        rewrite (IH (pre ++ [append_msg (ScalarMsg t v) ch]) post)
          by (cbn; now rewrite <- app_assoc).
        cbn [bridge clock server_running raw_chan].
        destruct (fan_out post (map (ScalarMsg t) rest)) as [o post'].
        now rewrite <- app_assoc.
Qed.

(** One frame, as a fan-out over the thirteen sinks. *)
Lemma log_frame_fan_out values w :
  log_frame values w
  = let (o, chans') := fan_out (sinks (bridge w))
                         (frame_messages (now (clock w)) values) in
    (o, {| clock := tick (clock w);
           bridge := with_sinks (bridge w) chans' |}).
Proof.
  unfold log_frame, bind, time_now, log_raw, Channel_log, sinks,
    frame_messages, now, tick.
  cbn [time_time fst snd bridge clock fan_out].
  destruct (faulty (raw_chan (bridge w))) eqn:Hf.
  - destruct w as [c [r raw sc]]. reflexivity.
  - pose proof (log_scalars_fan_out (reading (clock w) (reads (clock w))) values []
                  (scalar_chans (bridge w))) as H.
    cbn [List.length app] in H. rewrite H by reflexivity.
    cbn [bridge clock server_running raw_chan].
    destruct (fan_out (scalar_chans (bridge w)) _) as [o post'].
    unfold append_msg. cbn [with_sinks]. rewrite Hf. reflexivity.
Qed.

Lemma fan_out_healthy chans : forall msgs,
  forallb healthy chans = true ->
  (List.length msgs <= List.length chans)%nat ->
  fan_out chans msgs = (Returned tt, deliver_all msgs chans).
Proof.
  induction chans as [| ch chs IH]; intros [| m ms] Hh Hlen; cbn in *;
    try reflexivity; try lia.
  apply andb_prop in Hh as [Hch Hchs]. unfold healthy in Hch.
  destruct (faulty ch); [discriminate |].
  rewrite IH by (assumption || lia). reflexivity.
Qed.

Lemma nth_deliver_all msgs : forall chans k,
  nth_error (deliver_all msgs chans) k
  = match nth_error chans k with
    | None => None
    | Some ch => match nth_error msgs k with
                 | Some m => Some (append_msg m ch)
                 | None => Some ch
                 end
    end.
Proof.
  induction msgs as [| m ms IH]; intros chans k; cbn [deliver_all].
  - destruct (nth_error chans k); [| reflexivity].
    now destruct k.
  - destruct chans as [| ch chs]; [now destruct k |].
    destruct k as [| k]; cbn [nth_error]; [reflexivity | apply IH].
Qed.

Lemma length_deliver_all msgs : forall chans,
  List.length (deliver_all msgs chans) = List.length chans.
Proof.
  induction msgs as [| m ms IH]; intros [| ch chs]; cbn; auto.
Qed.

Lemma healthy_deliver_all msgs : forall chans,
  forallb healthy (deliver_all msgs chans) = forallb healthy chans.
Proof.
  induction msgs as [| m ms IH]; intros [| ch chs]; cbn; auto.
  now rewrite IH.
Qed.

Lemma topics_deliver_all msgs : forall chans,
  map topic (deliver_all msgs chans) = map topic chans.
Proof.
  induction msgs as [| m ms IH]; intros [| ch chs]; cbn; auto.
  now rewrite IH.
Qed.

Lemma topics_ok_map chans : forall chans',
  map topic chans' = map topic chans -> topics_ok chans' = topics_ok chans.
Proof.
  unfold topics_ok. intros chans' Hmap.
  assert (Hlen : List.length chans' = List.length chans)
    by (rewrite <- (length_map topic chans'), Hmap; apply length_map).
  rewrite Hlen. generalize (seq 0 (List.length chans)) as ixs.
  revert chans' Hmap Hlen.
  induction chans as [| ch chs IH]; intros [| ch' chs'] Hmap Hlen ixs;
    try discriminate; [reflexivity |].
  destruct ixs as [| i ixs]; [reflexivity |]. cbn in *.
  injection Hmap as Ht Hmap. rewrite Ht. f_equal. apply IH; auto.
Qed.

Lemma well_formed_publish values w :
  well_formed w = true -> well_formed (publish values w) = true.
Proof.
  unfold well_formed, publish, sinks, frame_messages.
  cbn [deliver_all with_sinks bridge raw_chan scalar_chans].
  intros H. rewrite !andb_true_iff in *. destruct H as [[[Hr Hs] Hl] Ht].
  repeat split.
  - exact Hr.
  - now rewrite healthy_deliver_all.
  - now rewrite length_deliver_all.
  - rewrite (topics_ok_map (scalar_chans (bridge w))); [exact Ht |].
    apply topics_deliver_all.
Qed.

Lemma log_frame_healthy values w :
  well_formed w = true -> List.length values = N_CH ->
  log_frame values w = (Returned tt, publish values w).
Proof.
  intros Hwf Hlen. rewrite log_frame_fan_out.
  unfold well_formed in Hwf. rewrite !andb_true_iff in Hwf.
  destruct Hwf as [[[Hr Hs] Hl] _]. apply Nat.eqb_eq in Hl.
  rewrite fan_out_healthy; [reflexivity | |].
  - unfold sinks. cbn [forallb]. now rewrite Hr, Hs.
  - unfold sinks, frame_messages. cbn [List.length].
    rewrite length_map. lia.
Qed.

Lemma on_notify_invalid data w : List.length data <> size ->
  on_notify data w = (Returned tt, w).
Proof.
  intros Hlen. unfold on_notify.
  now destruct (Nat.eqb_spec (List.length data) size).
Qed.

Lemma on_notify_log_frame data w : List.length data = size ->
  on_notify data w = log_frame (unpack_fields N_CH data) w.
Proof.
  intros Hlen. unfold on_notify. rewrite Hlen, Nat.eqb_refl. cbn [negb].
  unfold bind, lift. now rewrite (unpack_ok data Hlen).
Qed.

Lemma length_unpack_fields n data : List.length (unpack_fields n data) = n.
Proof. unfold unpack_fields. now rewrite length_map, fields_length. Qed.

Lemma on_notify_valid data w :
  well_formed w = true -> List.length data = size ->
  on_notify data w = (Returned tt, publish (unpack_fields N_CH data) w).
Proof.
  intros Hwf Hlen. rewrite on_notify_log_frame by assumption.
  apply log_frame_healthy; [assumption | apply length_unpack_fields].
Qed.

Lemma raw_log_publish values w :
  raw_log (publish values w)
  = raw_log w ++ [RawMsg (now (clock w)) values].
Proof. reflexivity. Qed.

Lemma scalar_chan_publish values w i ch :
  nth_error (scalar_chans (bridge w)) i = Some ch ->
  nth_error (scalar_chans (bridge (publish values w))) i
  = Some (match nth_error values i with
          | Some v => append_msg (ScalarMsg (now (clock w)) v) ch
          | None => ch
          end).
Proof.
  intros Hch. unfold publish, sinks, frame_messages.
  cbn [deliver_all with_sinks bridge scalar_chans].
  rewrite nth_deliver_all, Hch, nth_error_map.
  now destruct (nth_error values i).
Qed.

Lemma scalar_log_publish values w i :
  (i < List.length (scalar_chans (bridge w)))%nat ->
  (i < List.length values)%nat ->
  scalar_log i (publish values w)
  = scalar_log i w ++ [ScalarMsg (now (clock w)) (nth i values 0%Z)].
Proof.
  intros Hi Hv. unfold scalar_log.
  destruct (nth_error (scalar_chans (bridge w)) i) as [ch |] eqn:Hch;
    [| apply nth_error_None in Hch; lia].
  rewrite (scalar_chan_publish values w i ch Hch).
  destruct (nth_error values i) as [v |] eqn:Hval;
    [| apply nth_error_None in Hval; lia].
  now rewrite (nth_error_nth _ _ _ Hval).
Qed.

Lemma well_formed_chans w : well_formed w = true ->
  List.length (scalar_chans (bridge w)) = N_CH.
Proof.
  unfold well_formed. rewrite !andb_true_iff.
  intros [[[_ _] Hl] _]. now apply Nat.eqb_eq.
Qed.

(** A run of notifications: every sink gets the samples of the frames of
    the right size, in arrival order. *)
Lemma deliver_on_notify frames : forall w,
  well_formed w = true ->
  let w' := snd (deliver on_notify frames w) in
  well_formed w' = true
  /\ Forall (eq (Returned tt)) (fst (deliver on_notify frames w))
  /\ raw_log w' = raw_log w ++ map raw_of (samples (clock w) frames)
  /\ forall i, (i < N_CH)%nat ->
       scalar_log i w'
       = scalar_log i w ++ map (scalar_of i) (samples (clock w) frames).
Proof.
  induction frames as [| data rest IH]; intros w Hwf; cbn [deliver samples].
  - cbn [fst snd map]. repeat split; auto; intros; now rewrite app_nil_r.
  - unfold well_sized.
    destruct (Nat.eqb_spec (List.length data) size) as [Hlen | Hlen].
    + rewrite (on_notify_valid data w Hwf Hlen).
      set (vals := unpack_fields N_CH data).
      pose proof (well_formed_publish vals w Hwf) as Hwf'.
      specialize (IH (publish vals w) Hwf').
      destruct (deliver on_notify rest (publish vals w)) as [os w''].
      cbn [fst snd] in *. destruct IH as (Hw'' & Hos & Hraw & Hsc).
      repeat split; auto.
      * rewrite Hraw, raw_log_publish, <- app_assoc. reflexivity.
      * intros i Hi. rewrite (Hsc i Hi), scalar_log_publish, <- app_assoc.
        -- reflexivity.
        -- now rewrite (well_formed_chans w Hwf).
        -- unfold vals. now rewrite length_unpack_fields.
    + rewrite (on_notify_invalid data w Hlen).
      specialize (IH w Hwf).
      destruct (deliver on_notify rest w) as [os w'']. cbn [fst snd] in *.
      destruct IH as (Hw'' & Hos & Hraw & Hsc). repeat split; auto.
Qed.

Lemma samples_times frames : forall c,
  map fst (samples c frames)
  = map (reading c) (seq (reads c) (List.length (filter well_sized frames))).
Proof.
  induction frames as [| data rest IH]; intros c; cbn [samples filter];
    [reflexivity |].
  destruct (well_sized data); [| apply IH].
  cbn [map fst List.length seq]. f_equal. apply (IH (tick c)).
Qed.


End Bridge_facts.

(** ** Decoding a frame *)
Module Decoding.
Import Py Struct IEEE754 IEEE754_facts Struct_facts Examples.

Lemma nth_unpack_fields data i : (i < N_CH)%nat ->
  nth_error (unpack_fields N_CH data) i = Some (widen (word i data)).
Proof.
  intros Hi. unfold unpack_fields.
  rewrite nth_error_map, (nth_fields N_CH data i Hi). reflexivity.
Qed.

Lemma word_in_range data i : List.length data = size -> (i < N_CH)%nat ->
  (0 <= word i data < 2 ^ 32)%Z.
Proof.
  intros Hlen Hi. apply word_range.
  rewrite length_firstn, length_skipn, Hlen. unfold size, N_CH in *. lia.
Qed.

(** C4: a buffer of exactly [N_CH * 4] bytes decodes, in both handlers, to
    the sequence of [N_CH] values whose [i]-th element is the [i]-th
    little-endian 32-bit word read as a binary32 number and widened to
    binary64: the sign is kept, infinities and NaNs stay infinities and
    NaNs, and a finite number keeps its exact value (nothing is rounded
    or checked). *)
Theorem unpack_decodes_twelve_floats data :
  List.length data = size ->
  exists vals,
    unpack data = Returned vals
    /\ List.length vals = N_CH
    /\ (forall i, (i < N_CH)%nat ->
          exists v, nth_error vals i = Some v
            /\ v = widen (word i data)
            /\ (0 <= v < 2 ^ 64)%Z
            /\ sign64 v = sign32 (word i data)
            /\ class64 v = class32 (word i data)
            /\ (class32 (word i data) = Finite ->
                units64 v = (units32 (word i data) * 2 ^ 925)%Z))
    /\ (forall w, Bridge.on_notify data w = Bridge.log_frame vals w)
    /\ (forall w, Collector.callback data w
                  = (Returned tt,
                     {| Collector.clock := tick (Collector.clock w);
                        Collector.self :=
                          {| Collector.rows :=
                               Collector.rows (Collector.self w)
                               ++ [(PrimFloat.sub (now (Collector.clock w))
                                      (Collector.t0 (Collector.self w)),
                                    vals)];
                             Collector.t0 := Collector.t0 (Collector.self w)
                          |} |})).
Proof.
  intros Hlen. exists (unpack_fields N_CH data).
  split; [now apply unpack_ok |].
  split; [apply Bridge_facts.length_unpack_fields |].
  split; [| split].
  - intros i Hi. exists (widen (word i data)).
    pose proof (word_in_range data i Hlen Hi) as Hw.
    split; [now apply nth_unpack_fields |].
    split; [reflexivity |].
    split; [now apply widen_range |].
    split; [now apply widen_sign |].
    split; [now apply widen_class |].
    now apply widen_exact.
  - intros w. now apply Bridge_facts.on_notify_log_frame.
  - intros w. now apply Collector_facts.callback_valid.
Qed.

Lemma unpack_decodes_twelve_floats_witness :
  List.length ones_frame = size /\
  exists vals, unpack ones_frame = Returned vals /\ List.length vals = N_CH.
Proof.
  split; [reflexivity |].
  destruct (unpack_decodes_twelve_floats ones_frame eq_refl)
    as (vals & Hu & Hl & _).
  exists vals. split; assumption.
Defined.


(** The loss is in the decoding itself: the signalling and the quiet NaN
    decode to the same floats, so no encoder gives both buffers back. *)
Lemma unpack_merges_signalling_and_quiet_nan :
  snan_frame <> qnan_frame /\ unpack snan_frame = unpack qnan_frame.
Proof. split; [discriminate | reflexivity]. Qed.

Lemma no_encoder_inverts_unpack :
  ~ (exists encode : list pyfloat -> outcome (list byte),
       forall data, List.length data = size ->
         exists vals, unpack data = Returned vals
                      /\ encode vals = Returned data).
Proof.
  intros [encode H].
  destruct (H snan_frame eq_refl) as (v1 & Hu1 & He1).
  destruct (H qnan_frame eq_refl) as (v2 & Hu2 & He2).
  destruct unpack_merges_signalling_and_quiet_nan as [Hne Heq].
  rewrite Heq, Hu2 in Hu1. injection Hu1 as <-.
  rewrite He2 in He1. injection He1 as Hsame. now apply Hne.
Qed.



End Decoding.

(** ** Handling notifications *)
Module Ingestion.
Import Py Struct Examples Struct_facts.

(** C1: the collector's handler does not drop a buffer of the wrong size:
    on a buffer of forty bytes [struct.unpack] raises [struct.error] out
    of [BLECollector.callback] (the world is left as it was), where the
    guarded handler [on_notify] returns and drops the same buffer. *)
Theorem callback_raises_on_short_frame :
  Collector.callback short_frame (Collector.init (clock_of [1%float]))
  = (Raised StructError, Collector.init (clock_of [1%float]))
  /\ Bridge.on_notify short_frame (sound_bridge (clock_of [1%float]))
     = (Returned tt, sound_bridge (clock_of [1%float])).
Proof.
  split.
  - now apply Collector_facts.callback_invalid.
  - now apply Bridge_facts.on_notify_invalid.
Qed.

(** The guard of [on_notify]: a buffer of any other size than the
    format's is dropped, the handler returns and the world is untouched. *)
Theorem on_notify_drops_wrong_size data w :
  List.length data <> size ->
  Bridge.on_notify data w = (Returned tt, w).
Proof. apply Bridge_facts.on_notify_invalid. Qed.

Lemma on_notify_drops_wrong_size_witness :
  Bridge.on_notify short_frame (sound_bridge (clock_of [1%float]))
  = (Returned tt, sound_bridge (clock_of [1%float])).
Proof. apply on_notify_drops_wrong_size. discriminate. Defined.

(** [BLECollector.callback] has no such guard: on a buffer of any other
    size [struct.unpack] raises, before the clock is read and before a
    row is appended. *)
Theorem callback_raises_on_wrong_size data w :
  List.length data <> size ->
  Collector.callback data w = (Raised StructError, w).
Proof. apply Collector_facts.callback_invalid. Qed.

Lemma callback_raises_on_wrong_size_witness :
  Collector.callback short_frame (Collector.init (clock_of [1%float]))
  = (Raised StructError, Collector.init (clock_of [1%float])).
Proof. apply callback_raises_on_wrong_size. discriminate. Defined.


Lemma nondecreasing_readings (f : nat -> float) a n :
  (forall k, (a <= k)%nat -> (S k < a + n)%nat ->
             PrimFloat.leb (f k) (f (S k)) = true) ->
  nondecreasing (map f (seq a n)).
Proof.
  intros Hmono i x y Hx Hy.
  rewrite nth_error_map in Hx, Hy.
  destruct (nth_error (seq a n) i) as [p |] eqn:Hp; [| discriminate].
  destruct (nth_error (seq a n) (S i)) as [q |] eqn:Hq; [| discriminate].
  cbn in Hx, Hy. injection Hx as <-. injection Hy as <-.
  assert (Hi : (S i < n)%nat).
  { rewrite <- (length_seq n a). apply nth_error_Some. rewrite Hq.
    discriminate. }
  rewrite (nth_error_nth' _ 0%nat) in Hp by (rewrite length_seq; lia).
  rewrite (nth_error_nth' _ 0%nat) in Hq by (rewrite length_seq; lia).
  rewrite seq_nth in Hp by lia. rewrite seq_nth in Hq by lia.
  injection Hp as <-. injection Hq as <-.
  replace (a + S i)%nat with (S (a + i)) by lia. apply Hmono; lia.
Qed.

End Ingestion.

Module Runs.
Import Py Struct Examples Struct_facts Ingestion.

Lemma msg_time_raw_of l : map Bridge.msg_time (map Bridge.raw_of l) = map fst l.
Proof. rewrite map_map. apply map_ext. now intros [t vals]. Qed.

(** C2, as stated, fails: when the wall clock reads 100 and then 50, the
    second sample of the bridge carries 50 after 100; with the collector
    started at 0 the second row carries 50 after 100 as well; and on a
    wall clock that reads 5 twice (it never goes back) two rows of the
    collector carry the same time stamp. *)
Lemma timestamp_goes_back_with_the_wall_clock :
  ~ (forall frames w, Bridge.well_formed w = true ->
       nondecreasing
         (map Bridge.msg_time
              (Bridge.raw_log (snd (deliver Bridge.on_notify frames w)))))
  /\ ~ (forall frames w,
          nondecreasing
            (map fst (Collector.rows
                        (Collector.self
                           (snd (deliver Collector.callback frames w))))))
  /\ ~ (forall frames w,
          (forall k, PrimFloat.leb (reading (Collector.clock w) k)
                       (reading (Collector.clock w) (S k)) = true) ->
          increasing
            (map fst (Collector.rows
                        (Collector.self
                           (snd (deliver Collector.callback frames w)))))).
Proof.
  split; [| split]; intros H.
  - specialize (H [ones_frame; ones_frame]
                  (sound_bridge (clock_of [100%float; 50%float])) eq_refl
                  0%nat 100%float 50%float eq_refl eq_refl).
    vm_compute in H. discriminate H.
  - specialize (H [ones_frame; ones_frame]
                  (Collector.init (clock_of [0%float; 100%float; 50%float]))
                  0%nat 100%float 50%float eq_refl eq_refl).
    vm_compute in H. discriminate H.
  - specialize (H [ones_frame; ones_frame]
                  (Collector.init {| reading := fun _ => 5%float; reads := 0 |})
                  (fun _ => eq_refl)
                  0%nat 0%float 0%float eq_refl eq_refl).
    vm_compute in H. discriminate H.
Qed.

(** C2, amended: the time stamp of a sample is the wall-clock reading
    taken when its frame is handled, less the start reading [t0] in the
    collector; the samples of a run carry the successive readings, so in
    the bridge a sample is not stamped earlier than the one before it
    whenever the wall clock did not go back between the two readings. *)
Theorem timestamps_are_wall_clock_readings frames wb wc :
  Bridge.well_formed wb = true ->
  let n := List.length (filter well_sized frames) in
  let cb := Bridge.clock wb in
  let cc := Collector.clock wc in
  exists msgs added,
    Bridge.raw_log (snd (deliver Bridge.on_notify frames wb))
    = Bridge.raw_log wb ++ msgs
    /\ map Bridge.msg_time msgs = map (reading cb) (seq (reads cb) n)
    /\ ((forall k, (reads cb <= k)%nat -> (S k < reads cb + n)%nat ->
                   PrimFloat.leb (reading cb k) (reading cb (S k)) = true) ->
        nondecreasing (map Bridge.msg_time msgs))
    /\ Collector.rows (Collector.self (snd (deliver Collector.callback frames wc)))
       = Collector.rows (Collector.self wc) ++ added
    /\ map fst added
       = map (fun k => PrimFloat.sub (reading cc k)
                         (Collector.t0 (Collector.self wc)))
             (seq (reads cc) n).
Proof.
  intros Hwf n cb cc.
  exists (map Bridge.raw_of (Bridge.samples cb frames)),
         (Collector.samples cc (Collector.t0 (Collector.self wc)) frames).
  destruct (Bridge_facts.deliver_on_notify frames wb Hwf) as (_ & _ & Hraw & _).
  destruct (Collector_facts.deliver_rows frames wc) as (Hrows & _).
  assert (Htimes : map Bridge.msg_time (map Bridge.raw_of (Bridge.samples cb frames))
                   = map (reading cb) (seq (reads cb) n))
    by (rewrite msg_time_raw_of; apply Bridge_facts.samples_times).
  repeat split.
  - exact Hraw.
  - exact Htimes.
  - intros Hmono. rewrite Htimes. now apply nondecreasing_readings.
  - exact Hrows.
  - apply Collector_facts.rows_times.
Qed.

Lemma timestamps_are_wall_clock_readings_witness :
  exists msgs added,
    Bridge.raw_log
      (snd (deliver Bridge.on_notify [ones_frame; short_frame; zero_frame]
              (sound_bridge (clock_of [50%float; 100%float]))))
    = [] ++ msgs
    /\ map Bridge.msg_time msgs = [50%float; 100%float]
    /\ nondecreasing (map Bridge.msg_time msgs)
    /\ Collector.rows
         (Collector.self
            (snd (deliver Collector.callback [ones_frame; short_frame; zero_frame]
                    (Collector.init (clock_of [7%float; 100%float; 50%float])))))
       = [] ++ added
    /\ map fst added = [93%float; 43%float].
Proof.
  destruct (timestamps_are_wall_clock_readings
              [ones_frame; short_frame; zero_frame]
              (sound_bridge (clock_of [50%float; 100%float]))
              (Collector.init (clock_of [7%float; 100%float; 50%float]))
              eq_refl)
    as (msgs & added & H1 & H2 & H3 & H4 & H5).
  exists msgs, added. repeat split; try assumption.
  apply H3. intros [| k] _ Hk; [reflexivity | cbn in Hk; lia].
Defined.






End Runs.

(** ** A malformed frame among valid ones *)
Module Fan_out.
Import Py Struct Bridge Examples Struct_facts Bridge_facts.

(** C7, as stated, fails: the bridge keeps no decode-error counter.  The
    handler leaves the world exactly as it was on a buffer of forty
    bytes, so no quantity read from the world goes up by one. *)
Lemma no_decode_error_counter :
  ~ (exists counter : World -> nat,
       forall w, well_formed w = true ->
         counter (snd (on_notify short_frame w)) = S (counter w)).
Proof.
  intros [counter H].
  specialize (H (sound_bridge (clock_of [1%float])) eq_refl).
  cbn in H. lia.
Qed.

(** C7, amended: a buffer of the wrong size between two buffers of the
    right size is dropped without a trace (the handler returns, the world
    is untouched, nothing is counted), and both valid frames are decoded
    and logged on the aggregated channel and on each of the twelve scalar
    channels. *)
Theorem malformed_frame_is_dropped_silently v1 bad v2 w :
  well_formed w = true ->
  List.length v1 = size -> List.length bad <> size -> List.length v2 = size ->
  let t1 := reading (clock w) (reads (clock w)) in
  let t2 := reading (clock w) (S (reads (clock w))) in
  let vals1 := unpack_fields N_CH v1 in
  let vals2 := unpack_fields N_CH v2 in
  let w' := snd (deliver on_notify [v1; bad; v2] w) in
  (forall w0, on_notify bad w0 = (Returned tt, w0))
  /\ fst (deliver on_notify [v1; bad; v2] w)
     = [Returned tt; Returned tt; Returned tt]
  /\ w' = snd (deliver on_notify [v1; v2] w)
  /\ raw_log w' = raw_log w ++ [RawMsg t1 vals1; RawMsg t2 vals2]
  /\ (forall i, (i < N_CH)%nat ->
        scalar_log i w'
        = scalar_log i w ++ [ScalarMsg t1 (nth i vals1 0%Z);
                             ScalarMsg t2 (nth i vals2 0%Z)]).
Proof.
  intros Hwf H1 Hbad H2 t1 t2 vals1 vals2 w'.
  assert (Hdrop : forall w0, on_notify bad w0 = (Returned tt, w0))
    by (intros w0; now apply on_notify_invalid).
  pose proof (well_formed_publish vals1 w Hwf) as Hwf1.
  assert (Hrun : deliver on_notify [v1; bad; v2] w
                 = ([Returned tt; Returned tt; Returned tt],
                    publish vals2 (publish vals1 w))).
  { cbn [deliver]. rewrite (on_notify_valid v1 w Hwf H1), Hdrop.
    fold vals1. now rewrite (on_notify_valid v2 _ Hwf1 H2). }
  assert (Hrun' : deliver on_notify [v1; v2] w
                  = ([Returned tt; Returned tt],
                     publish vals2 (publish vals1 w))).
  { cbn [deliver]. rewrite (on_notify_valid v1 w Hwf H1).
    fold vals1. now rewrite (on_notify_valid v2 _ Hwf1 H2). }
  unfold w'. rewrite Hrun, Hrun'. cbn [fst snd].
  repeat split; auto.
  - rewrite !raw_log_publish, <- app_assoc. reflexivity.
  - intros i Hi.
    rewrite !scalar_log_publish, <- app_assoc; try reflexivity;
      rewrite ?(well_formed_chans _ Hwf), ?(well_formed_chans _ Hwf1);
      unfold vals1, vals2; rewrite ?length_unpack_fields; assumption.
Qed.

Lemma malformed_frame_is_dropped_silently_witness :
  fst (deliver on_notify [ones_frame; short_frame; zero_frame]
         (sound_bridge (clock_of [1%float; 2%float])))
  = [Returned tt; Returned tt; Returned tt].
Proof.
  apply (malformed_frame_is_dropped_silently ones_frame short_frame zero_frame
           (sound_bridge (clock_of [1%float; 2%float])));
    try reflexivity.
  cbn. lia.
Defined.

End Fan_out.

(** ** A sink that raises *)
Module Sink_failure.
Import Py Struct Bridge Examples Struct_facts Bridge_facts.

(** Up to the first sink that raises, [fan_out] serves the sinks; from
    that sink on nothing is logged. *)
Lemma fan_out_faulty k : forall chans msgs ch,
  nth_error chans k = Some ch ->
  faulty ch = true ->
  (forall j cj, (j < k)%nat -> nth_error chans j = Some cj -> faulty cj = false) ->
  (k < List.length msgs)%nat ->
  fan_out chans msgs = (Raised SinkError, deliver_all (firstn k msgs) chans).
Proof.
  induction k as [| k IH]; intros chans msgs ch Hk Hf Hbefore Hlen.
  - destruct chans as [| c chs]; [discriminate |].
    destruct msgs as [| m ms]; [cbn in Hlen; lia |].
    cbn in Hk. injection Hk as ->. cbn. now rewrite Hf.
  - destruct chans as [| c chs]; [discriminate |].
    destruct msgs as [| m ms]; [cbn in Hlen; lia |].
    cbn [nth_error] in Hk. cbn [fan_out firstn deliver_all].
    rewrite (Hbefore 0%nat c) by (lia || reflexivity).
    rewrite (IH chs ms ch Hk Hf); [reflexivity | | cbn in Hlen; lia].
    intros j cj Hj Hcj. apply (Hbefore (S j) cj); [lia | exact Hcj].
Qed.

Lemma sinks_with_sinks b msgs :
  sinks (with_sinks b (deliver_all msgs (sinks b))) = deliver_all msgs (sinks b).
Proof. unfold sinks. destruct msgs; reflexivity. Qed.

(** C8, as stated, fails: when the aggregated channel cannot log, the
    exception leaves the handler on every frame, the channel is tried
    again on the next frame, and the healthy channel ch1 receives none of
    the two samples. *)
Lemma failing_sink_starves_the_others :
  ~ (forall frames w i ch,
       List.length (scalar_chans (bridge w)) = N_CH ->
       nth_error (scalar_chans (bridge w)) i = Some ch ->
       faulty ch = false ->
       scalar_log i (snd (deliver on_notify frames w))
       = scalar_log i w ++ map (scalar_of i) (samples (clock w) frames)).
Proof.
  intros H.
  specialize (H [ones_frame; zero_frame]
                (raw_broken_bridge (clock_of [1%float; 2%float]))
                0%nat
                {| topic := "/load_cells/ch1"; faulty := false; logged := [] |}
                eq_refl eq_refl eq_refl).
  vm_compute in H. discriminate H.
Qed.

(** C8, amended: when the [log] of a sink raises while a frame is
    published, the exception is not caught: [log_frame] and the handler
    raise it to the event loop.  The sinks served before the failing one
    have logged the frame, the failing sink and every sink after it have
    logged nothing of it, and every sink stays registered as it is (no
    sink is marked failed or removed, so the next frame tries it again). *)
Theorem sink_error_propagates values w k ch :
  nth_error (sinks (bridge w)) k = Some ch ->
  faulty ch = true ->
  (forall j cj, (j < k)%nat ->
     nth_error (sinks (bridge w)) j = Some cj -> faulty cj = false) ->
  (k <= List.length values)%nat ->
  exists w',
    log_frame values w = (Raised SinkError, w')
    /\ (forall data, List.length data = size ->
          unpack_fields N_CH data = values ->
          on_notify data w = (Raised SinkError, w'))
    /\ List.length (sinks (bridge w')) = List.length (sinks (bridge w))
    /\ (forall j cj mj, (j < k)%nat ->
          nth_error (sinks (bridge w)) j = Some cj ->
          nth_error (frame_messages (now (clock w)) values) j = Some mj ->
          nth_error (sinks (bridge w')) j = Some (append_msg mj cj))
    /\ (forall j, (k <= j)%nat ->
          nth_error (sinks (bridge w')) j = nth_error (sinks (bridge w)) j).
Proof.
  intros Hk Hf Hbefore Hlen.
  set (msgs := frame_messages (now (clock w)) values).
  assert (Hmsgs : (k < List.length msgs)%nat).
  { unfold msgs, frame_messages. cbn [List.length]. rewrite length_map. lia. }
  pose proof (fan_out_faulty k _ msgs ch Hk Hf Hbefore Hmsgs) as Hfan.
  set (w' := {| clock := tick (clock w);
                bridge := with_sinks (bridge w)
                            (deliver_all (firstn k msgs) (sinks (bridge w))) |}).
  assert (Hlog : log_frame values w = (Raised SinkError, w')).
  { rewrite log_frame_fan_out. fold msgs. now rewrite Hfan. }
  assert (Hsinks : sinks (bridge w') = deliver_all (firstn k msgs) (sinks (bridge w)))
    by apply sinks_with_sinks.
  exists w'. split; [exact Hlog |]. split; [| split; [| split]].
  - intros data Hsize Hvals.
    now rewrite (on_notify_log_frame data w Hsize), Hvals.
  - now rewrite Hsinks, length_deliver_all.
  - intros j cj mj Hj Hcj Hmj. fold msgs in Hmj.
    rewrite Hsinks, nth_deliver_all, Hcj, nth_error_firstn.
    destruct (Nat.ltb_spec j k) as [_ | ?]; [| lia]. now rewrite Hmj.
  - intros j Hj.
    rewrite Hsinks, nth_deliver_all, nth_error_firstn.
    destruct (Nat.ltb_spec j k) as [? | _]; [lia |].
    now destruct (nth_error (sinks (bridge w)) j).
Qed.

Lemma sink_error_propagates_witness :
  exists w',
    log_frame (unpack_fields N_CH ones_frame)
      (raw_broken_bridge (clock_of [1%float])) = (Raised SinkError, w')
    /\ List.length (sinks (bridge w')) = 13%nat.
Proof.
  destruct (sink_error_propagates (unpack_fields N_CH ones_frame)
              (raw_broken_bridge (clock_of [1%float])) 0%nat
              {| topic := "/load_cells/raw"; faulty := true; logged := [] |}
              eq_refl eq_refl)
    as (w' & Hlog & _ & Hlen & _).
  - intros j cj Hj. inversion Hj.
  - apply Nat.le_0_l.
  - exists w'. split; [exact Hlog | exact Hlen].
Defined.

End Sink_failure.

(** ** One frame on thirteen channels *)
Module Publishing.
Import Py Struct Bridge Examples Struct_facts Bridge_facts.

Lemma topics_ok_nth chans : forall a i ch,
  forallb (fun p => String.eqb (topic (snd p)) (scalar_topic (fst p)))
          (combine (seq a (List.length chans)) chans) = true ->
  nth_error chans i = Some ch ->
  topic ch = scalar_topic (a + i).
Proof.
  induction chans as [| c chs IH]; intros a i ch Hok Hnth;
    [now destruct i |].
  cbn in Hok. apply andb_prop in Hok as [Hc Hrest].
  destruct i as [| i]; cbn in Hnth.
  - injection Hnth as <-. apply String.eqb_eq in Hc.
    now rewrite Nat.add_0_r.
  - rewrite (IH (S a) i ch Hrest Hnth). f_equal. lia.
Qed.

Lemma well_formed_topic w i ch : well_formed w = true ->
  nth_error (scalar_chans (bridge w)) i = Some ch ->
  topic ch = scalar_topic i.
Proof.
  unfold well_formed. rewrite !andb_true_iff. intros [_ Ht] Hnth.
  exact (topics_ok_nth _ 0%nat i ch Ht Hnth).
Qed.

(** C10: [log_frame] reads the clock once; the message on the aggregated
    channel and the messages on the twelve scalar channels of one frame
    all carry that reading [t], and the channel with topic
    [/load_cells/ch(i+1)] logs exactly the [i]-th value of the frame. *)
Theorem frame_messages_share_one_timestamp values w :
  well_formed w = true ->
  List.length values = N_CH ->
  let t := reading (clock w) (reads (clock w)) in
  exists w',
    log_frame values w = (Returned tt, w')
    /\ reads (clock w') = S (reads (clock w))
    /\ reading (clock w') = reading (clock w)
    /\ raw_log w' = raw_log w ++ [RawMsg t values]
    /\ List.length (scalar_chans (bridge w')) = N_CH
    /\ (forall i, (i < N_CH)%nat ->
          exists ch ch',
            nth_error (scalar_chans (bridge w)) i = Some ch
            /\ nth_error (scalar_chans (bridge w')) i = Some ch'
            /\ topic ch' = scalar_topic i
            /\ logged ch' = logged ch ++ [ScalarMsg t (nth i values 0%Z)]).
Proof.
  intros Hwf Hlen t. exists (publish values w).
  pose proof (well_formed_publish values w Hwf) as Hwf'.
  split; [now apply log_frame_healthy |].
  split; [reflexivity |]. split; [reflexivity |].
  split; [apply raw_log_publish |].
  split; [now apply well_formed_chans |].
  intros i Hi.
  destruct (nth_error (scalar_chans (bridge w)) i) as [ch |] eqn:Hch;
    [| apply nth_error_None in Hch;
       rewrite (well_formed_chans w Hwf) in Hch; lia].
  destruct (nth_error values i) as [v |] eqn:Hv;
    [| apply nth_error_None in Hv; lia].
  pose proof (scalar_chan_publish values w i ch Hch) as Hch'.
  rewrite Hv in Hch'.
  exists ch, (append_msg (ScalarMsg (now (clock w)) v) ch).
  split; [reflexivity |]. split; [exact Hch' |].
  split; [exact (well_formed_topic _ i _ Hwf' Hch') |].
  cbn [append_msg logged]. now rewrite (nth_error_nth _ _ _ Hv).
Qed.

Lemma frame_messages_share_one_timestamp_witness :
  exists w',
    log_frame (unpack_fields N_CH ones_frame)
      (sound_bridge (clock_of [5%float])) = (Returned tt, w')
    /\ raw_log w' = [] ++ [RawMsg 5%float (unpack_fields N_CH ones_frame)].
Proof.
  destruct (frame_messages_share_one_timestamp
              (unpack_fields N_CH ones_frame)
              (sound_bridge (clock_of [5%float])) eq_refl eq_refl)
    as (w' & Hlog & _ & _ & Hraw & _).
  exists w'. split; [exact Hlog | exact Hraw].
Defined.

End Publishing.

(** ** Shutdown *)
Module Shutdown.
Import Py Struct Bridge.


End Shutdown.

(** * Further properties of the two scripts *)

(** ** The scan for the device *)
Module Discovery_facts.
Import Discovery.

(** The scan loop stops at the first device that advertises the name:
    it is in the list, the devices before it advertise another name or
    none, and whatever follows it is not looked at. *)
Theorem find_target_is_first_match devices d :
  find_target devices = Some d
  <-> exists before after,
        devices = before ++ d :: after
        /\ named d = true
        /\ Forall (fun x => named x = false) before.
Proof.
  split.
  - induction devices as [| x rest IH]; cbn [find_target]; [discriminate |].
    destruct (named x) eqn:Hx.
    + intros [= ->]. exists [], rest. repeat split; [exact Hx | constructor].
    + intros H. destruct (IH H) as (before & after & -> & Hd & Hall).
      exists (x :: before), after. repeat split; [exact Hd |].
      now constructor.
  - intros (before & after & -> & Hd & Hall).
    induction Hall as [| x before Hx _ IH]; cbn [app find_target].
    + now rewrite Hd.
    + now rewrite Hx.
Qed.

(** No target is found exactly when no discovered device advertises the
    name (in particular on an empty scan). *)
Lemma find_target_none_iff devices :
  find_target devices = None <-> Forall (fun x => named x = false) devices.
Proof.
  induction devices as [| x rest IH]; cbn [find_target].
  - split; [constructor | reflexivity].
  - destruct (named x) eqn:Hx.
    + split; [discriminate |]. intros H. inversion H; congruence.
    + rewrite IH. split; [now constructor | now inversion 1].
Qed.

End Discovery_facts.

(** ** [log_frame] and [on_notify] on any bridge *)
Module Robustness.
Import Py Struct Bridge Examples Struct_facts Bridge_facts.

(** However the sinks behave, [fan_out] serves a prefix of them. *)
Lemma fan_out_served msgs : forall chans,
  exists j,
    (j <= List.length msgs)%nat /\ (j <= List.length chans)%nat
    /\ snd (fan_out chans msgs) = deliver_all (firstn j msgs) chans
    /\ forallb healthy (firstn j chans) = true
    /\ (fst (fan_out chans msgs) = Returned tt /\ j = List.length msgs
        \/ fst (fan_out chans msgs) = Raised IndexError
           /\ j = List.length chans /\ (j < List.length msgs)%nat
        \/ fst (fan_out chans msgs) = Raised SinkError
           /\ (j < List.length msgs)%nat
           /\ exists ch, nth_error chans j = Some ch /\ faulty ch = true).
Proof.
  induction msgs as [| m ms IH]; intros chans.
  - exists 0%nat. cbn. repeat split; try lia. now left.
  - destruct chans as [| ch chs].
    + exists 0%nat. cbn. repeat split; try lia. right; left. repeat split; lia.
    + cbn [fan_out]. destruct (faulty ch) eqn:Hf.
      * exists 0%nat. cbn. repeat split; try lia.
        right; right. repeat split; [lia |]. now exists ch.
      * destruct (IH chs) as (j & Hjm & Hjc & Hsnd & Hh & Hcases).
        destruct (fan_out chs ms) as [o chs'] eqn:Hfan. cbn [fst snd] in *.
        exists (S j). cbn [List.length firstn deliver_all forallb nth_error].
        unfold healthy at 1. rewrite Hf, Hsnd. cbn [negb andb].
        repeat split; try lia; [exact Hh |].
        destruct Hcases as [[Ho Hj] | [[Ho [Hj Hlt]] | [Ho [Hlt Hch]]]].
        -- left. split; [exact Ho | lia].
        -- right; left. repeat split; [exact Ho | lia | lia].
        -- right; right. repeat split; [exact Ho | lia | exact Hch].
Qed.

Lemma sinks_with_served b j msgs :
  sinks (with_sinks b (deliver_all (firstn j msgs) (sinks b)))
  = deliver_all (firstn j msgs) (sinks b).
Proof. unfold sinks. destruct (firstn j msgs); reflexivity. Qed.

Lemma faulty_deliver_all msgs : forall chans,
  map faulty (deliver_all msgs chans) = map faulty chans.
Proof.
  induction msgs as [| m ms IH]; intros [| ch chs]; cbn; auto.
  now rewrite IH.
Qed.

Lemma log_frame_keeps_server values w :
  server_running (bridge (snd (log_frame values w)))
  = server_running (bridge w).
Proof.
  rewrite log_frame_fan_out.
  destruct (fan_out (sinks (bridge w)) _) as [o chans'].
  cbn [snd bridge]. now destruct chans'.
Qed.

Lemma on_notify_keeps_server data w :
  server_running (bridge (snd (on_notify data w)))
  = server_running (bridge w).
Proof.
  destruct (Nat.eqb_spec (List.length data) size) as [Hlen | Hlen].
  - rewrite (on_notify_log_frame data w Hlen). apply log_frame_keeps_server.
  - now rewrite (on_notify_invalid data w Hlen).
Qed.

Lemma deliver_keeps_server frames : forall w,
  server_running (bridge (snd (deliver on_notify frames w)))
  = server_running (bridge w).
Proof.
  induction frames as [| data rest IH]; intros w; cbn [deliver];
    [reflexivity |].
  pose proof (on_notify_keeps_server data w) as Hstep.
  destruct (on_notify data w) as [o w1]. cbn [snd] in Hstep.
  specialize (IH w1). destruct (deliver on_notify rest w1) as [os w2].
  cbn [snd] in *. congruence.
Qed.

(** Whatever the values and whatever the sinks do, [log_frame] reads the
    clock once and serves the sinks in order up to some sink [j]: each of
    the first [j] sinks logs its own message of the frame, once, and no
    other sink logs anything; the channels, their topics and the server
    are left as they are.  It returns exactly when every message of the
    frame was served. *)
Theorem log_frame_serves_a_prefix values w :
  let msgs := frame_messages (now (clock w)) values in
  let w' := snd (log_frame values w) in
  exists j,
    (j <= List.length msgs)%nat
    /\ reads (clock w') = S (reads (clock w))
    /\ server_running (bridge w') = server_running (bridge w)
    /\ sinks (bridge w') = deliver_all (firstn j msgs) (sinks (bridge w))
    /\ map topic (sinks (bridge w')) = map topic (sinks (bridge w))
    /\ (forall k ch, nth_error (sinks (bridge w)) k = Some ch ->
          nth_error (sinks (bridge w')) k
          = Some (match nth_error msgs k with
                  | Some m => if Nat.ltb k j then append_msg m ch else ch
                  | None => ch
                  end))
    /\ (fst (log_frame values w) = Returned tt <-> j = List.length msgs).
Proof.
  intros msgs w'.
  destruct (fan_out_served msgs (sinks (bridge w)))
    as (j & Hjm & Hjc & Hsnd & _ & Hcases).
  assert (Hw' : w' = {| clock := tick (clock w);
                        bridge := with_sinks (bridge w)
                                    (deliver_all (firstn j msgs) (sinks (bridge w))) |}
                /\ fst (log_frame values w) = fst (fan_out (sinks (bridge w)) msgs)).
  { unfold w'. rewrite log_frame_fan_out. fold msgs.
    destruct (fan_out (sinks (bridge w)) msgs) as [o chans'].
    cbn [fst snd] in *. now rewrite Hsnd. }
  destruct Hw' as [Hw' Hfst].
  assert (Hsinks : sinks (bridge w') = deliver_all (firstn j msgs) (sinks (bridge w)))
    by (rewrite Hw'; apply sinks_with_served).
  exists j. split; [exact Hjm |].
  split; [now rewrite Hw' |]. split.
  { rewrite Hw'. cbn [bridge]. unfold sinks.
    now destruct (firstn j msgs). }
  split; [exact Hsinks |].
  split; [rewrite Hsinks; apply topics_deliver_all |]. split.
  - intros k ch Hk. rewrite Hsinks, nth_deliver_all, Hk, nth_error_firstn.
    destruct (Nat.ltb k j); now destruct (nth_error msgs k).
  - rewrite Hfst.
    destruct Hcases as [[Ho Hj] | [[Ho [Hj Hlt]] | [Ho [Hlt Hch]]]];
      rewrite Ho; split; intros H; try discriminate; try lia; reflexivity.
Qed.

Lemma fan_out_overrun chans : forall msgs,
  forallb healthy chans = true ->
  (List.length chans < List.length msgs)%nat ->
  fan_out chans msgs = (Raised IndexError, deliver_all msgs chans).
Proof.
  induction chans as [| ch chs IH]; intros [| m ms] Hh Hlen; cbn in *;
    try lia; [reflexivity |].
  apply andb_prop in Hh as [Hch Hchs]. unfold healthy in Hch.
  destruct (faulty ch); [discriminate |].
  rewrite IH by (assumption || lia). reflexivity.
Qed.

Lemma scalar_log_beyond values w i :
  (List.length values <= i)%nat ->
  scalar_log i (publish values w) = scalar_log i w.
Proof.
  intros Hi. unfold scalar_log.
  destruct (nth_error (scalar_chans (bridge w)) i) as [ch |] eqn:Hch.
  - rewrite (scalar_chan_publish values w i ch Hch).
    now replace (nth_error values i) with (@None pyfloat)
      by (symmetry; apply nth_error_None; exact Hi).
  - unfold publish, sinks, frame_messages.
    cbn [deliver_all with_sinks bridge scalar_chans].
    now rewrite nth_deliver_all, Hch.
Qed.

(** [log_frame] does not look at the number of values.  With at most as
    many values as scalar channels (none at all included) it returns: the
    aggregated channel logs the values as they are, scalar channel [i]
    logs value [i] when there is one, and the channels beyond the last
    value log nothing. *)
Theorem log_frame_with_fewer_values values w :
  forallb healthy (sinks (bridge w)) = true ->
  (List.length values <= List.length (scalar_chans (bridge w)))%nat ->
  log_frame values w = (Returned tt, publish values w)
  /\ raw_log (publish values w)
     = raw_log w ++ [RawMsg (now (clock w)) values]
  /\ (forall i, (i < List.length values)%nat ->
        scalar_log i (publish values w)
        = scalar_log i w ++ [ScalarMsg (now (clock w)) (nth i values 0%Z)])
  /\ (forall i, (List.length values <= i)%nat ->
        scalar_log i (publish values w) = scalar_log i w).
Proof.
  intros Hh Hlen. split; [| split; [| split]].
  - rewrite log_frame_fan_out, fan_out_healthy; [reflexivity | exact Hh |].
    unfold sinks, frame_messages. cbn [List.length]. rewrite length_map. lia.
  - apply raw_log_publish.
  - intros i Hi. apply scalar_log_publish; lia.
  - intros i Hi. now apply scalar_log_beyond.
Qed.

Lemma log_frame_with_fewer_values_witness :
  log_frame [] (sound_bridge (clock_of [3%float]))
  = (Returned tt, publish [] (sound_bridge (clock_of [3%float])))
  /\ raw_log (publish [] (sound_bridge (clock_of [3%float])))
     = [] ++ [RawMsg 3%float []].
Proof.
  destruct (log_frame_with_fewer_values [] (sound_bridge (clock_of [3%float]))
              eq_refl (Nat.le_0_l _)) as (H1 & H2 & _).
  split; [exact H1 | exact H2].
Defined.

(** With more values than scalar channels [log_frame] raises
    [IndexError], but only after the aggregated channel has logged all
    the values and every scalar channel has logged its own. *)
Theorem log_frame_with_too_many_values values w :
  forallb healthy (sinks (bridge w)) = true ->
  (List.length (scalar_chans (bridge w)) < List.length values)%nat ->
  log_frame values w = (Raised IndexError, publish values w)
  /\ raw_log (publish values w)
     = raw_log w ++ [RawMsg (now (clock w)) values]
  /\ (forall i, (i < List.length (scalar_chans (bridge w)))%nat ->
        scalar_log i (publish values w)
        = scalar_log i w ++ [ScalarMsg (now (clock w)) (nth i values 0%Z)]).
Proof.
  intros Hh Hlen. split; [| split].
  - rewrite log_frame_fan_out, fan_out_overrun; [reflexivity | exact Hh |].
    unfold sinks, frame_messages. cbn [List.length]. rewrite length_map. lia.
  - apply raw_log_publish.
  - intros i Hi. apply scalar_log_publish; lia.
Qed.

Lemma log_frame_with_too_many_values_witness :
  fst (log_frame (repeat 0%Z 13) (sound_bridge (clock_of [3%float])))
  = Raised IndexError.
Proof.
  destruct (log_frame_with_too_many_values (repeat 0%Z 13)
              (sound_bridge (clock_of [3%float])) eq_refl)
    as (H1 & _).
  - cbn. lia.
  - now rewrite H1.
Defined.

Lemma log_frame_clock values w :
  clock (snd (log_frame values w)) = tick (clock w).
Proof.
  rewrite log_frame_fan_out.
  now destruct (fan_out (sinks (bridge w)) _) as [o chans'].
Qed.

(** The clock is read once for every notification of the right size and
    never for one that is dropped or that fails to unpack, whatever the
    sinks do: after a run the bridge and the collector have each read
    it as many times as well-sized buffers arrived. *)
Theorem clock_read_once_per_valid_frame frames wb wc :
  let n := List.length (filter well_sized frames) in
  let wb' := snd (deliver on_notify frames wb) in
  let wc' := snd (deliver Collector.callback frames wc) in
  reads (clock wb') = (reads (clock wb) + n)%nat
  /\ reading (clock wb') = reading (clock wb)
  /\ reads (Collector.clock wc') = (reads (Collector.clock wc) + n)%nat
  /\ reading (Collector.clock wc') = reading (Collector.clock wc).
Proof.
  cbv zeta. split; [| split; [| split]].
  - revert wb. induction frames as [| data rest IH]; intros wb;
      cbn [deliver filter]; [cbn; lia |].
    unfold well_sized at 1.
    destruct (Nat.eqb_spec (List.length data) size) as [Hlen | Hlen].
    + pose proof (log_frame_clock (unpack_fields N_CH data) wb) as Hc.
      rewrite <- (on_notify_log_frame data wb Hlen) in Hc.
      destruct (on_notify data wb) as [o w1]. cbn [snd] in Hc.
      specialize (IH w1). destruct (deliver on_notify rest w1) as [os w2].
      cbn [snd List.length] in *. rewrite IH, Hc. cbn. lia.
    + rewrite (on_notify_invalid data wb Hlen).
      specialize (IH wb). destruct (deliver on_notify rest wb) as [os w2].
      exact IH.
  - revert wb. induction frames as [| data rest IH]; intros wb;
      cbn [deliver]; [reflexivity |].
    destruct (Nat.eqb_spec (List.length data) size) as [Hlen | Hlen].
    + pose proof (log_frame_clock (unpack_fields N_CH data) wb) as Hc.
      rewrite <- (on_notify_log_frame data wb Hlen) in Hc.
      destruct (on_notify data wb) as [o w1]. cbn [snd] in Hc.
      specialize (IH w1). destruct (deliver on_notify rest w1) as [os w2].
      cbn [snd] in *. now rewrite IH, Hc.
    + rewrite (on_notify_invalid data wb Hlen).
      specialize (IH wb). destruct (deliver on_notify rest wb) as [os w2].
      exact IH.
  - revert wc. induction frames as [| data rest IH]; intros wc;
      cbn [deliver filter]; [cbn; lia |].
    unfold well_sized at 1.
    destruct (Nat.eqb_spec (List.length data) size) as [Hlen | Hlen].
    + rewrite (Collector_facts.callback_valid data wc Hlen).
      specialize (IH (Collector.appended data wc)).
      destruct (deliver Collector.callback rest _) as [os w2].
      cbn [snd List.length] in *. rewrite IH. cbn. lia.
    + rewrite (Collector_facts.callback_invalid data wc Hlen).
      specialize (IH wc). destruct (deliver Collector.callback rest wc).
      exact IH.
  - revert wc. induction frames as [| data rest IH]; intros wc;
      cbn [deliver]; [reflexivity |].
    destruct (Nat.eqb_spec (List.length data) size) as [Hlen | Hlen].
    + rewrite (Collector_facts.callback_valid data wc Hlen).
      specialize (IH (Collector.appended data wc)).
      destruct (deliver Collector.callback rest _) as [os w2].
      cbn [snd] in *. now rewrite IH.
    + rewrite (Collector_facts.callback_invalid data wc Hlen).
      specialize (IH wc). destruct (deliver Collector.callback rest wc).
      exact IH.
Qed.

Lemma faulty_sink_unhealthy chans j ch :
  nth_error chans j = Some ch -> faulty ch = true ->
  forallb healthy chans = true -> False.
Proof.
  intros Hnth Hf Hall. rewrite forallb_forall in Hall.
  specialize (Hall ch (nth_error_In _ _ Hnth)). unfold healthy in Hall.
  now rewrite Hf in Hall.
Qed.

(** On a bridge with its twelve scalar channels the handler raises
    nothing of its own: never [struct.error], never [IndexError].  It
    returns exactly when the buffer has the wrong size or every channel
    logs; otherwise it raises what the first failing channel raised. *)
Theorem on_notify_raises_only_for_a_sink data w :
  List.length (scalar_chans (bridge w)) = N_CH ->
  (fst (on_notify data w) = Returned tt
   \/ fst (on_notify data w) = Raised SinkError)
  /\ (fst (on_notify data w) = Returned tt
      <-> well_sized data = false
          \/ forallb healthy (sinks (bridge w)) = true).
Proof.
  intros Hchans. unfold well_sized.
  destruct (Nat.eqb_spec (List.length data) size) as [Hlen | Hlen].
  - rewrite (on_notify_log_frame data w Hlen), log_frame_fan_out.
    set (msgs := frame_messages (now (clock w)) (unpack_fields N_CH data)).
    assert (Hmsgs : List.length msgs = List.length (sinks (bridge w))).
    { unfold msgs, frame_messages, sinks. cbn [List.length].
      now rewrite length_map, length_unpack_fields, Hchans. }
    destruct (fan_out_served msgs (sinks (bridge w)))
      as (j & Hjm & Hjc & _ & Hh & Hcases).
    destruct (fan_out (sinks (bridge w)) msgs) as [o chans'].
    cbn [fst snd] in *.
    destruct Hcases as [[Ho Hj] | [[Ho [Hj Hlt]] | [Ho [Hlt (ch & Hch & Hf)]]]].
    + subst o. split; [now left |]. split; [| reflexivity].
      intros _. right. rewrite Hj, Hmsgs, firstn_all in Hh. exact Hh.
    + lia.
    + subst o. split; [now right |]. split; [discriminate |].
      intros [? | Hall]; [discriminate |].
      destruct (faulty_sink_unhealthy _ _ _ Hch Hf Hall).
  - rewrite (on_notify_invalid data w Hlen). cbn [fst].
    split; [now left |]. split; [now left | reflexivity].
Qed.

Lemma on_notify_raises_only_for_a_sink_witness :
  fst (on_notify ones_frame (raw_broken_bridge (clock_of [1%float])))
  = Raised SinkError.
Proof.
  destruct (on_notify_raises_only_for_a_sink ones_frame
              (raw_broken_bridge (clock_of [1%float])) eq_refl)
    as [[H | H] _]; [discriminate H | exact H].
Defined.

End Robustness.

(** ** Messages and their schemas *)
Module Schema_facts.
Import Py Struct Bridge Schema Examples Struct_facts Bridge_facts.

Lemma numbers_valid data :
  forallb (valid TNumber) (map (fun v => JNumber (Value v)) data) = true.
Proof. induction data; cbn; auto. Qed.

Lemma array_valid lo hi data :
  valid (TArray TNumber lo hi) (JArray (map (fun v => JNumber (Value v)) data))
  = Nat.leb lo (List.length data) && Nat.leb (List.length data) hi.
Proof. cbn [valid]. now rewrite length_map, numbers_valid, andb_true_r. Qed.

(** The aggregated message meets [RAW_SCHEMA] exactly when it carries
    [N_CH] values: [minItems] and [maxItems] are the only constraint a
    message built by [log_frame] can miss. *)
Theorem raw_message_valid_iff t data :
  valid RAW_SCHEMA (to_json (RawMsg t data)) = true
  <-> List.length data = N_CH.
Proof.
  change (valid RAW_SCHEMA (to_json (RawMsg t data)))
    with (valid (TArray TNumber N_CH N_CH)
                (JArray (map (fun v => JNumber (Value v)) data)) && true).
  rewrite andb_true_r, array_valid, andb_true_iff, !Nat.leb_le. lia.
Qed.




(** [log_frame] itself checks nothing: on a working aggregated channel
    it logs the values it is given, so with any other number of values
    than [N_CH] the message it publishes violates [RAW_SCHEMA]. *)
Theorem log_frame_can_violate_raw_schema values w :
  faulty (raw_chan (bridge w)) = false ->
  List.length values <> N_CH ->
  exists m,
    raw_log (snd (log_frame values w)) = raw_log w ++ [m]
    /\ m = RawMsg (now (clock w)) values
    /\ valid RAW_SCHEMA (to_json m) = false.
Proof.
  intros Hraw Hlen. exists (RawMsg (now (clock w)) values).
  split; [| split; [reflexivity |]].
  - rewrite log_frame_fan_out. unfold sinks, frame_messages.
    cbn [fan_out]. rewrite Hraw.
    destruct (fan_out (scalar_chans (bridge w)) _) as [o chs'].
    reflexivity.
  - destruct (valid RAW_SCHEMA (to_json (RawMsg (now (clock w)) values)))
      eqn:Hv; [| reflexivity].
    apply raw_message_valid_iff in Hv. contradiction.
Qed.

Lemma log_frame_can_violate_raw_schema_witness :
  exists m,
    raw_log (snd (log_frame [0%Z] (sound_bridge (clock_of [3%float])))) = [] ++ [m]
    /\ valid RAW_SCHEMA (to_json m) = false.
Proof.
  destruct (log_frame_can_violate_raw_schema [0%Z]
              (sound_bridge (clock_of [3%float])) eq_refl)
    as (m & H1 & _ & H3).
  - discriminate.
  - exists m. split; [exact H1 | exact H3].
Defined.

End Schema_facts.

(** ** The CSV file *)
Module Csv.
Import Py Struct Collector Examples Struct_facts Collector_facts.

Lemma samples_have_twelve_values frames : forall c start,
  Forall (fun r => List.length (snd r) = N_CH) (samples c start frames).
Proof.
  induction frames as [| data rest IH]; intros c start; cbn [samples];
    [constructor |].
  destruct (well_sized data); [| apply IH].
  constructor; [apply Bridge_facts.length_unpack_fields | apply IH].
Qed.

Lemma handled_iff e : handled e = true <-> e = KeyboardInterrupt.
Proof. destruct e; cbn; split; congruence. Qed.

(** The CSV file [main] writes is rectangular: under the header of
    thirteen columns every row has thirteen cells (the time stamp and
    twelve values), and there is one row per notification of the right
    size received since the collector was created, in arrival order. *)
Theorem csv_file_is_rectangular c frames cl e header body :
  let w := snd (deliver callback frames (init c)) in
  let s := {| client := cl; world := w; journal := [] |} in
  In (EvCsvSaved header body) (journal (snd (main_exit e s))) ->
  header = csv_header
  /\ List.length header = S N_CH
  /\ Forall (fun r => S (List.length (snd r)) = List.length header) body
  /\ map snd body = map (unpack_fields N_CH) (filter well_sized frames).
Proof.
  intros w s Hin.
  assert (Hbody : header = csv_header /\ body = rows (self w)).
  { unfold main_exit, finally_block, Ble.stop_notify in Hin. cbn in Hin.
    destruct (Ble.link_up cl); cbn in Hin.
    - destruct (handled e); cbn in Hin.
      + destruct Hin as [H | [H | [H | []]]]; try discriminate.
        injection H as <- <-. now split.
      + destruct Hin as [H | [H | []]]; discriminate.
    - destruct Hin as [H | [H | []]]; discriminate. }
  destruct Hbody as [-> ->].
  destruct (deliver_rows frames (init c)) as (Hrows & _). fold w in Hrows.
  cbn [init time_time self rows app] in Hrows.
  split; [reflexivity |]. split; [reflexivity |]. split.
  - rewrite Hrows. eapply Forall_impl; [| apply samples_have_twelve_values].
    intros r Hr. now rewrite Hr.
  - rewrite Hrows. apply rows_values.
Qed.

Lemma csv_file_is_rectangular_witness :
  S (List.length (unpack_fields N_CH ones_frame)) = List.length csv_header.
Proof.
  pose (cl := {| Ble.link_up := true; Ble.notifying := true |}).
  pose (c := clock_of [0%float; 1%float]).
  destruct (csv_file_is_rectangular c [ones_frame] cl KeyboardInterrupt
              csv_header
              (rows (self (snd (deliver callback [ones_frame] (init c))))))
    as (_ & _ & Hcells & _).
  - cbn. right. right. left. reflexivity.
  - inversion Hcells as [| r rest Hr _]; subst. exact Hr.
Defined.

(** [main] writes the CSV file exactly when the plot loop was left by
    [KeyboardInterrupt] and [stop_notify] returned, and these are the
    only runs it ends normally; on any other exception of the loop, or
    when [stop_notify] raises, the rows collected are not written. *)
Theorem csv_written_iff e cl w :
  let s := {| client := cl; world := w; journal := [] |} in
  (fst (main_exit e s) = Returned tt
   <-> e = KeyboardInterrupt /\ Ble.link_up cl = true)
  /\ ((exists header body,
         In (EvCsvSaved header body) (journal (snd (main_exit e s))))
      <-> e = KeyboardInterrupt /\ Ble.link_up cl = true)
  /\ (e = KeyboardInterrupt -> Ble.link_up cl = true ->
      In (EvCsvSaved csv_header (rows (self w)))
         (journal (snd (main_exit e s)))).
Proof.
  intros s. unfold main_exit, finally_block, Ble.stop_notify. cbn.
  destruct (Ble.link_up cl); cbn.
  - destruct (handled e) eqn:He; cbn.
    + apply handled_iff in He. subst e.
      split; [| split].
      * split; [now intros _ | reflexivity].
      * split; [now intros _ |].
        intros _. exists csv_header, (rows (self w)). cbn. tauto.
      * intros _ _. tauto.
    + assert (Hne : e <> KeyboardInterrupt) by (intros ->; discriminate).
      split; [| split].
      * split; [discriminate | now intros [? _]].
      * split; [| now intros [? _]].
        intros (h & b & [H | [H | []]]); discriminate.
      * intros ?. contradiction.
  - split; [| split].
    + split; [discriminate | intros [_ H]; discriminate].
    + split; [| intros [_ H]; discriminate].
      intros (h & b & [H | [H | []]]); discriminate.
    + intros _ H. discriminate.
Qed.

End Csv.

(** ** The streaming coroutine *)
Module Stream_facts.
Import Py Struct Bridge Stream Examples Struct_facts Bridge_facts.

Lemma streamed_world frames : forall s,
  Ble.notifying (client s) = true ->
  world (streamed frames s) = snd (deliver on_notify frames (world s))
  /\ client (streamed frames s) = client s
  /\ journal (streamed frames s) = journal s.
Proof.
  unfold streamed.
  induction frames as [| data rest IH]; intros s Hn; cbn [fold_left deliver].
  - repeat split.
  - assert (Hstep : on_frame data s
                    = {| client := client s;
                         world := snd (on_notify data (world s));
                         journal := journal s |})
      by (unfold on_frame; now rewrite Hn).
    rewrite Hstep.
    destruct (IH {| client := client s;
                    world := snd (on_notify data (world s));
                    journal := journal s |} Hn) as (Hw & Hc & Hj).
    rewrite Hw, Hc, Hj. cbn [world client journal].
    destruct (on_notify data (world s)) as [o w1]. cbn [snd].
    destruct (deliver on_notify rest w1) as [os w2]. repeat split.
Qed.

Lemma init_well_formed br c :
  (forall t, br t = false) -> well_formed (init br c) = true.
Proof.
  intros Hbr. unfold well_formed, init, healthy, new_channel, topics_ok.
  cbn [bridge raw_chan scalar_chans faulty]. rewrite Hbr.
  cbn. rewrite !Hbr. reflexivity.
Qed.

(** The bridge is created only after the scan has found the device: the
    coroutine ends without a bridge exactly when no discovered device
    advertises the name, and then it has raised the "not found"
    [RuntimeError]. *)
Theorem no_bridge_without_device env c :
  (snd (connect_ble_and_stream env c) = None
   <-> Forall (fun d => Discovery.named d = false) (devices env))
  /\ (snd (connect_ble_and_stream env c) = None ->
      fst (connect_ble_and_stream env c) = RuntimeError not_found).
Proof.
  unfold connect_ble_and_stream.
  destruct (Discovery.find_target (devices env)) as [d |] eqn:Hfind.
  - assert (Hsome : forall A (x : ending * option A) y, snd x = Some y -> snd x <> None)
      by congruence.
    assert (Hnot : ~ Forall (fun d => Discovery.named d = false) (devices env)).
    { intros Hall. apply Discovery_facts.find_target_none_iff in Hall.
      congruence. }
    destruct (is_connected env); cbn [negb].
    + destruct (stream_exit _) as [[u | e'] s2]; cbn [snd fst];
        (split; [split; [discriminate | contradiction] | discriminate]).
    + cbn [snd fst]. split; [split; [discriminate | contradiction] | discriminate].
  - cbn [snd fst]. split; [| reflexivity].
    split; [| reflexivity].
    intros _. now apply Discovery_facts.find_target_none_iff.
Qed.

(** The server started by [FoxgloveBridge()] is stopped only on one path:
    when the connection check passed and [stop_notify] returned.  When
    [is_connected()] answers no, or when [stop_notify] raises, the
    coroutine ends with the server still running. *)
Theorem server_stopped_only_after_unsubscribing env c d :
  Discovery.find_target (devices env) = Some d ->
  exists s,
    snd (connect_ble_and_stream env c) = Some s
    /\ server_running (bridge (world s))
       = negb (is_connected env && link_at_exit env)
    /\ Ble.notifying (client s)
       = is_connected env && negb (link_at_exit env)
    /\ (is_connected env = false ->
        fst (connect_ble_and_stream env c) = RuntimeError connect_failed
        /\ raw_log (world s) = []
        /\ journal s = [EvDisconnect]).
Proof.
  intros Hfind. unfold connect_ble_and_stream. rewrite Hfind.
  destruct (is_connected env) eqn:Hconn; cbn [negb andb].
  - set (s0 := {| client := _; world := _; journal := [] |}).
    destruct (streamed_world (arriving env) (subscribe s0) eq_refl)
      as (Hw & Hc & Hj).
    unfold stream_exit, finally_block, Ble.stop_notify, at_exit.
    cbn [client Ble.link_up Ble.notifying world journal].
    destruct (link_at_exit env); cbn.
    + eexists. split; [reflexivity |]. cbn.
      split; [reflexivity |]. split; [reflexivity | discriminate].
    + eexists. split; [reflexivity |]. cbn. rewrite Hc, Hw. cbn.
      split; [apply Robustness.deliver_keeps_server |].
      split; [reflexivity | discriminate].
  - eexists. split; [reflexivity |]. cbn.
    split; [reflexivity |]. split; [reflexivity |]. intros _. repeat split.
Qed.

Lemma server_stopped_only_after_unsubscribing_witness :
  exists s,
    snd (connect_ble_and_stream Fixtures.refused (clock_of [1%float])) = Some s
    /\ server_running (bridge (world s)) = true.
Proof.
  destruct (server_stopped_only_after_unsubscribing
              Fixtures.refused (clock_of [1%float]) Fixtures.gadget eq_refl)
    as (s & Hs & Hrun & _).
  exists s. split; [exact Hs | exact Hrun].
Defined.

(** A whole run over a working SDK: every notification that arrived
    while the loop was sleeping is in the channels when the coroutine
    ends (the shutdown neither drops nor adds a message), and the
    coroutine returns normally exactly when the loop was left by
    [KeyboardInterrupt] and [stop_notify] returned. *)
Theorem stream_keeps_what_it_received env c d :
  Discovery.find_target (devices env) = Some d ->
  is_connected env = true ->
  (forall t, broken env t = false) ->
  exists s,
    snd (connect_ble_and_stream env c) = Some s
    /\ raw_log (world s) = map raw_of (samples c (arriving env))
    /\ (forall i, (i < N_CH)%nat ->
          scalar_log i (world s)
          = map (scalar_of i) (samples c (arriving env)))
    /\ (fst (connect_ble_and_stream env c) = Finished
        <-> loop_exit env = KeyboardInterrupt /\ link_at_exit env = true).
Proof.
  intros Hfind Hconn Hbr. unfold connect_ble_and_stream.
  rewrite Hfind, Hconn. cbn [negb].
  set (s0 := {| client := _; world := _; journal := [] |}).
  destruct (streamed_world (arriving env) (subscribe s0) eq_refl)
    as (Hw & Hc & Hj).
  pose proof (init_well_formed (broken env) c Hbr) as Hwf.
  destruct (deliver_on_notify (arriving env) (init (broken env) c) Hwf)
    as (_ & _ & Hraw & Hsc).
  cbn [subscribe world s0] in Hw. rewrite <- Hw in Hraw, Hsc.
  assert (Hraw0 : raw_log (init (broken env) c) = []) by reflexivity.
  assert (Hsc0 : forall i, scalar_log i (init (broken env) c) = []).
  { intros i. unfold scalar_log, init. cbn [bridge scalar_chans].
    rewrite nth_error_map. now destruct (nth_error (seq 0 N_CH) i). }
  rewrite Hraw0 in Hraw. cbn [app clock init] in Hraw.
  unfold stream_exit, finally_block, Ble.stop_notify, at_exit.
  cbn [client Ble.link_up Ble.notifying world journal].
  destruct (link_at_exit env); cbn.
  - eexists. split; [reflexivity |]. cbn. split; [exact Hraw |]. split.
    + intros i Hi. specialize (Hsc i Hi). rewrite Hsc0 in Hsc. exact Hsc.
    + destruct (loop_exit env); cbn; split;
        try discriminate; try tauto; intros [H _]; discriminate.
  - eexists. split; [reflexivity |]. cbn. split; [exact Hraw |]. split.
    + intros i Hi. specialize (Hsc i Hi). rewrite Hsc0 in Hsc. exact Hsc.
    + split; [discriminate | intros [_ H]; discriminate].
Qed.

Lemma stream_keeps_what_it_received_witness :
  exists s,
    snd (connect_ble_and_stream Fixtures.interrupted (clock_of [1%float]))
    = Some s
    /\ raw_log (world s)
       = map raw_of (samples (clock_of [1%float]) [ones_frame; short_frame]).
Proof.
  destruct (stream_keeps_what_it_received
              Fixtures.interrupted (clock_of [1%float]) Fixtures.gadget
              eq_refl eq_refl (fun _ => eq_refl))
    as (s & Hs & Hraw & _).
  exists s. split; [exact Hs | exact Hraw].
Defined.

End Stream_facts.

(** ** What the decoding keeps *)
Module Decoding_facts.
Import Py Struct IEEE754 Struct_facts Examples.

Lemma pack_unpack_free data :
  List.length data = size -> signalling_free data = true ->
  pack (unpack_fields N_CH data) = Returned data.
Proof.
  intros Hlen Hfree. rewrite (pack_unpack data Hlen). f_equal.
  rewrite <- (concat_fields N_CH data Hlen) at 2. f_equal.
  pose proof (fields_width N_CH data Hlen) as Hwidth.
  unfold signalling_free in Hfree. rewrite forallb_forall in Hfree.
  rewrite Forall_forall in Hwidth.
  rewrite <- (map_id (fields N_CH data)) at 2.
  apply map_ext_in. intros f Hin.
  apply quiet_field_id; [now apply Hwidth |].
  specialize (Hfree f Hin). now destruct (signalling32 (le_combine f)).
Qed.

(** Apart from signalling NaNs the decoding loses nothing: two buffers
    of the right size without a signalling NaN that decode to the same
    twelve floats are the same buffer. *)
Theorem unpack_injective_without_signalling_nan d1 d2 :
  List.length d1 = size -> List.length d2 = size ->
  signalling_free d1 = true -> signalling_free d2 = true ->
  unpack d1 = unpack d2 -> d1 = d2.
Proof.
  intros H1 H2 F1 F2 Heq.
  rewrite (unpack_ok d1 H1), (unpack_ok d2 H2) in Heq.
  assert (Hvals : unpack_fields N_CH d1 = unpack_fields N_CH d2)
    by congruence.
  pose proof (pack_unpack_free d1 H1 F1) as P1.
  pose proof (pack_unpack_free d2 H2 F2) as P2.
  rewrite Hvals, P2 in P1. congruence.
Qed.

Lemma unpack_injective_without_signalling_nan_witness :
  concat (repeat [Byte.x00; Byte.x00; Byte.x80; Byte.x3f] 12) = ones_frame.
Proof.
  apply unpack_injective_without_signalling_nan; reflexivity.
Defined.

End Decoding_facts.
